(** * containerd-stargz-grpc: bootstrap and lifecycle of the snapshotter daemon

    A shallow embedding of [cmd/containerd-stargz-grpc/main.go]: the [main]
    function and [waitForSIGINT], written in a small state monad whose state
    holds the observable trace of calls, the file system, the process-wide
    logging settings, the deferred calls, the signal channel and the
    schedule of what the rest of the system does while [main] runs next to
    the serve goroutine. *)

From stdpp Require Import gmap strings list fin_maps.

Local Open Scope string_scope.
Local Open Scope list_scope.
Local Open Scope nat_scope.

(** ** Data *)

(** [logrus.Level]. *)
Inductive Level :=
  | PanicLevel | FatalLevel | ErrorLevel | WarnLevel
  | InfoLevel | DebugLevel | TraceLevel.

(** Error numbers of the system calls the program makes. *)
Inductive Errno :=
  | ENOENT | ENOTDIR | EISDIR | ENXIO | EADDRINUSE | EACCES | EROFS | EIO.

(** Failures that do not depend on what is stored at a path (permissions,
    read-only or broken media); the environment injects them per operation. *)
Inductive Fault := FaultEACCES | FaultEROFS | FaultEIO.

Definition fault_errno (f : Fault) : Errno :=
  match f with
  | FaultEACCES => EACCES
  | FaultEROFS => EROFS
  | FaultEIO => EIO
  end.

(** A Go [error] value: a system-call error or an error made by a library. *)
Inductive Err :=
  | SysErr (e : Errno)
  | LibErr (msg : string).

(** [os.IsNotExist]. *)
Definition os_IsNotExist (err : Err) : bool :=
  match err with
  | SysErr ENOENT => true
  | _ => false
  end.

(** Signals; [os.Interrupt] is [SIGINT]. *)
Inductive Signal := SIGINT | SIGTERM | SIGHUP | SIGUSR1.

Definition os_Interrupt : Signal := SIGINT.

(** What the Go runtime does with a signal nobody subscribed to, after the
    documentation of package [os/signal]: SIGHUP, SIGINT and SIGTERM cause
    the program to exit; SIGUSR1 is one of the other signals, which are
    caught with no action taken. *)
Definition default_exits (s : Signal) : bool :=
  match s with
  | SIGUSR1 => false
  | _ => true
  end.

#[global] Instance Signal_eq_dec : EqDecision Signal.
Proof. solve_decision. Defined.

(** Modelled from the spec: [service.Config] is declared in the repository's
    [service] package, which is not part of this slice.  The bootstrap treats
    it opaquely: a decoded key/value document, whose zero value is empty. *)
Definition Config := list (string * string).

Definition zero_Config : Config := [].

(** The snapshotter returned by the engine constructor, an opaque handle. *)
Definition Handle := nat.

(** Node of the file system: a regular file with its content, a directory
    with its permission bits, or a Unix-domain socket. *)
Inductive Node :=
  | File (content : string)
  | Dir (perm : N)
  | Socket.

#[global] Instance Node_eq_dec : EqDecision Node.
Proof. solve_decision. Defined.

(** The file system maps a path to what is stored there. *)
Abbreviation FS := (gmap string Node).

(** Time layouts: [log.RFC3339NanoFixed] of containerd's log package is the
    one the program names. *)
Inductive TimeLayout := RFC3339NanoFixed.

(** [logrus.Formatter] values: the text formatter logrus starts with and the
    JSON formatter the program installs. *)
Inductive Formatter :=
  | TextFormatter
  | JSONFormatter (TimestampFormat : TimeLayout).

(** Where the output of the standard library's [log] package goes. *)
Inductive GologOutput :=
  | Stderr
  | WriterLevel (lvl : Level).

(** A call registered with [defer]: the closure of lines 87-91 over [rs]. *)
Inductive Deferred :=
  | DeferClose (rs : Handle).

(** The calls a run makes, in the order it makes them. *)
Inductive Event :=
  | EvLog (lvl : Level) (err : option Err) (format : string) (args : list string)
  | EvPrintln (operands : list string)
  | EvSetLevel (lvl : Level)
  | EvSetFormatter (f : Formatter)
  | EvGologSetOutput (out : GologOutput)
  | EvDecodeFile (fpath : string) (err : option Err)
  | EvNewService (root : string) (config : Config) (r : Handle + Err)
  | EvDefer (d : Deferred)
  | EvNewServer
  | EvFromSnapshotter (rs : Handle)
  | EvRegister
  | EvMkdirAll (path : string) (perm : N) (err : option Errno)
  | EvRemoveAll (path : string) (err : option Errno)
  | EvListen (network addr : string) (err : option Errno)
  | EvGoServe (addr : string)
  | EvServeReturn (err : Err)
  | EvMakeChan (cap : nat)
  | EvNotify (sigs : list Signal)
  | EvRecv (s : Signal)
  | EvClose (rs : Handle) (err : option Err).

(** What the rest of the system does between two steps of [main] once the
    serve goroutine runs: [rpc.Serve] returns, or a signal reaches the
    process. *)
Inductive Async :=
  | ServeReturns (err : option Err)
  | Deliver (s : Signal).

(** How a run ends: the process exits with a code, is terminated by a signal
    it did not subscribe to, or stays blocked in [<-c] for good. *)
Inductive Status :=
  | Exit (code : Z)
  | Killed (s : Signal)
  | Waiting.

(** The command-line flags after [flag.Parse]. *)
Record Flags := {
  address : string;
  configPath : string;
  logLevel : string;
  rootDir : string;
  printVersion : bool
}.

Definition defaultAddress : string :=
  "/run/containerd-stargz-grpc/containerd-stargz-grpc.sock".
Definition defaultConfigPath : string :=
  "/etc/containerd-stargz-grpc/config.toml".
Definition defaultLogLevel : Level := InfoLevel.
Definition defaultRootDir : string := "/var/lib/containerd-stargz-grpc".

(** The flags when none is given on the command line (lines 47-51). *)
Definition default_flags : Flags :=
  {| address := defaultAddress;
     configPath := defaultConfigPath;
     logLevel := "info"; (* defaultLogLevel.String() *)
     rootDir := defaultRootDir;
     printVersion := false |}.

(** The operations a fault can be injected into. *)
Inductive Op := OpReadFile | OpMkdirAll | OpRemoveAll | OpListen.

(** Everything [main] depends on and does not define: the libraries it calls,
    the engine, the build-time version strings, the file system at start, the
    injected faults and the schedule. *)
Record World := {
  logrus_ParseLevel : string → Level + Err;
  toml_Decode : string → Config → Config * option string;
  filepath_Dir : string → string;
  service_NewStargzSnapshotterService : string → Config → Handle + Err;
  rs_Close : Handle → option Err;
  version_Version : string;
  version_Revision : string;
  fs0 : FS;
  fault : Op → option Fault;
  schedule : list (list Async)
}.

(** The level names the [log-level] flag documents (line 49). *)
Definition level_of_name (s : string) : option Level :=
  if String.eqb s "trace" then Some TraceLevel
  else if String.eqb s "debug" then Some DebugLevel
  else if String.eqb s "info" then Some InfoLevel
  else if String.eqb s "warn" then Some WarnLevel
  else if String.eqb s "error" then Some ErrorLevel
  else if String.eqb s "fatal" then Some FatalLevel
  else if String.eqb s "panic" then Some PanicLevel
  else None.

(** ** The file system operations of package [os] and [net] *)

(** [k] is [p] or lies below it. *)
Definition within (p k : string) : bool :=
  String.eqb k p || String.prefix (p +:+ "/") k.

(** [os.ReadFile]. *)
Definition os_ReadFile (flt : option Fault) (name : string) (fs : FS)
    : string + Errno :=
  match fs !! name with
  | None => inr ENOENT
  | Some (Dir _) => inr EISDIR
  | Some Socket => inr ENXIO
  | Some (File bs) =>
      match flt with
      | Some f => inr (fault_errno f)
      | None => inl bs
      end
  end.

(** [os.MkdirAll]: nothing to do when [path] is a directory already; the
    permission bits are used for what it creates. *)
Definition os_MkdirAll (flt : option Fault) (path : string) (perm : N) (fs : FS)
    : FS * option Errno :=
  match fs !! path with
  | Some (Dir _) => (fs, None)
  | Some _ => (fs, Some ENOTDIR)
  | None =>
      match flt with
      | Some f => (fs, Some (fault_errno f))
      | None => (<[path := Dir perm]> fs, None)
      end
  end.

(** [os.RemoveAll]: removes [path] and any children it contains; when there
    is nothing at the path it returns nil. *)
Definition os_RemoveAll (flt : option Fault) (path : string) (fs : FS)
    : FS * option Errno :=
  if decide (filter (λ kv, within path kv.1 = true) fs = ∅) then (fs, None)
  else
    match flt with
    | Some f => (fs, Some (fault_errno f))
    | None => (filter (λ kv, within path kv.1 = false) fs, None)
    end.

(** [net.Listen "unix"]: binding creates the socket file and fails with
    EADDRINUSE when something is at the path already. *)
Definition net_Listen (flt : option Fault) (addr : string) (fs : FS)
    : FS * option Errno :=
  match fs !! addr with
  | Some _ => (fs, Some EADDRINUSE)
  | None =>
      match flt with
      | Some f => (fs, Some (fault_errno f))
      | None => (<[addr := Socket]> fs, None)
      end
  end.

(** ** State of a run *)

Record State := mkState {
  trace : list Event;
  fs : FS;
  log_level : Level;
  log_formatter : Formatter;
  golog_output : GologOutput;
  deferred : list Deferred;
  serve_task : option string;
  subscribed : list Signal;
  chan_cap : nat;
  chan_buf : list Signal;
  sched : list (list Async)
}.

(** At process start: logrus at its defaults (level info, text formatter),
    nothing deferred, one goroutine, no subscription. *)
Definition init (w : World) : State :=
  {| trace := [];
     fs := fs0 w;
     log_level := InfoLevel;
     log_formatter := TextFormatter;
     golog_output := Stderr;
     deferred := [];
     serve_task := None;
     subscribed := [];
     chan_cap := 0;
     chan_buf := [];
     sched := [] |}.

Definition add_event (e : Event) (st : State) : State :=
  mkState (trace st ++ [e]) (fs st) (log_level st) (log_formatter st)
    (golog_output st) (deferred st) (serve_task st) (subscribed st)
    (chan_cap st) (chan_buf st) (sched st).

Definition set_fs (x : FS) (st : State) : State :=
  mkState (trace st) x (log_level st) (log_formatter st)
    (golog_output st) (deferred st) (serve_task st) (subscribed st)
    (chan_cap st) (chan_buf st) (sched st).

Definition set_log_level (x : Level) (st : State) : State :=
  mkState (trace st) (fs st) x (log_formatter st)
    (golog_output st) (deferred st) (serve_task st) (subscribed st)
    (chan_cap st) (chan_buf st) (sched st).

Definition set_log_formatter (x : Formatter) (st : State) : State :=
  mkState (trace st) (fs st) (log_level st) x
    (golog_output st) (deferred st) (serve_task st) (subscribed st)
    (chan_cap st) (chan_buf st) (sched st).

Definition set_golog_output (x : GologOutput) (st : State) : State :=
  mkState (trace st) (fs st) (log_level st) (log_formatter st)
    x (deferred st) (serve_task st) (subscribed st)
    (chan_cap st) (chan_buf st) (sched st).

Definition set_deferred (x : list Deferred) (st : State) : State :=
  mkState (trace st) (fs st) (log_level st) (log_formatter st)
    (golog_output st) x (serve_task st) (subscribed st)
    (chan_cap st) (chan_buf st) (sched st).

Definition set_serve_task (x : option string) (st : State) : State :=
  mkState (trace st) (fs st) (log_level st) (log_formatter st)
    (golog_output st) (deferred st) x (subscribed st)
    (chan_cap st) (chan_buf st) (sched st).

Definition set_subscribed (x : list Signal) (st : State) : State :=
  mkState (trace st) (fs st) (log_level st) (log_formatter st)
    (golog_output st) (deferred st) (serve_task st) x
    (chan_cap st) (chan_buf st) (sched st).

Definition set_chan (cap : nat) (buf : list Signal) (st : State) : State :=
  mkState (trace st) (fs st) (log_level st) (log_formatter st)
    (golog_output st) (deferred st) (serve_task st) (subscribed st)
    cap buf (sched st).

Definition set_sched (x : list (list Async)) (st : State) : State :=
  mkState (trace st) (fs st) (log_level st) (log_formatter st)
    (golog_output st) (deferred st) (serve_task st) (subscribed st)
    (chan_cap st) (chan_buf st) x.

(** ** The monad of [main]

    A computation takes the state and either hands back a value, or ends the
    run: [os.Exit] (which runs no deferred call), a fatal signal, or a
    receive that blocks for good. *)

Inductive Res (A : Type) :=
  | Done (a : A) (st : State)
  | Halt (x : Status) (st : State).
Arguments Done {A} a st.
Arguments Halt {A} x st.

Definition M (A : Type) : Type := State → Res A.

#[global] Instance M_ret : MRet M := λ A a st, Done a st.

#[global] Instance M_bind : MBind M := λ A B f m st,
  match m st with
  | Done a st' => f a st'
  | Halt x st' => Halt x st'
  end.

(** [Fatal] and [Fatalf] of a logrus entry: the entry is logged at fatal
    severity, then the process exits with status 1. *)
Definition Fatalf {A} (err : option Err) (format : string) (args : list string)
    : M A :=
  λ st, Halt (Exit 1) (add_event (EvLog FatalLevel err format args) st).

(** A non-blocking send on the buffered signal channel, as package [signal]
    does it: the value is dropped when the buffer is full. *)
Definition chan_send (s : Signal) (st : State) : State :=
  if decide (length (chan_buf st) < chan_cap st)
  then set_chan (chan_cap st) (chan_buf st ++ [s]) st
  else st.

(** One thing the rest of the system does.  When [rpc.Serve] returns nil the
    goroutine ends; when it returns an error line 119 runs and ends the
    process.  A signal goes to the channel when it is subscribed, and to the
    runtime's default otherwise. *)
Definition async_step (a : Async) : M () := λ st,
  match a with
  | ServeReturns r =>
      match serve_task st with
      | None => Done () st
      | Some addr =>
          match r with
          | None => Done () (set_serve_task None st)
          | Some err =>
              Fatalf (Some err) "error on serving via socket %q" [addr]
                (add_event (EvServeReturn err) st)
          end
      end
  | Deliver s =>
      if decide (s ∈ subscribed st) then Done () (chan_send s st)
      else if default_exits s then Halt (Killed s) st
      else Done () st
  end.

Fixpoint async_steps (evs : list Async) : M () :=
  match evs with
  | [] => mret ()
  | a :: evs' => async_step a ;; async_steps evs'
  end.

(** A scheduling point: the next entry of the schedule happens.  The
    schedule is empty until the serve goroutine is started. *)
Definition yield : M () := λ st,
  match sched st with
  | [] => Done () st
  | evs :: rest => async_steps evs (set_sched rest st)
  end.

(** An effect on the state that returns a value. *)
Definition effect {A} (f : State → A * State) : M A :=
  λ st, Done (f st).1 (f st).2.

(** A step of [main] that returns once it runs: a scheduling point, then
    the effect on the state. *)
Definition step {A} (f : State → A * State) : M A :=
  yield ;; effect f.

(** A call that only shows in the trace. *)
Definition call (e : Event) : M () :=
  step (λ st, ((), add_event e st)).

Definition log_Debug (msg : string) : M () := call (EvLog DebugLevel None msg []).
Definition log_Info (msg : string) : M () := call (EvLog InfoLevel None msg []).
Definition fmt_Println (operands : list string) : M () := call (EvPrintln operands).

Definition logrus_SetLevel (lvl : Level) : M () :=
  step (λ st, ((), set_log_level lvl (add_event (EvSetLevel lvl) st))).

Definition logrus_SetFormatter (f : Formatter) : M () :=
  step (λ st, ((), set_log_formatter f (add_event (EvSetFormatter f) st))).

Definition golog_SetOutput (out : GologOutput) : M () :=
  step (λ st, ((), set_golog_output out (add_event (EvGologSetOutput out) st))).

(** [toml.DecodeFile] on the file system [fs]: read the file, then decode
    what was read into [v]; when the read fails [v] is not touched. *)
Definition decode_file (w : World) (fpath : string) (v : Config) (fs : FS)
    : Config * option Err :=
  match os_ReadFile (fault w OpReadFile) fpath fs with
  | inr e => (v, Some (SysErr e))
  | inl bs => ((toml_Decode w bs v).1, LibErr <$> (toml_Decode w bs v).2)
  end.

Definition toml_DecodeFile (w : World) (fpath : string) (v : Config)
    : M (Config * option Err) :=
  step (λ st,
    let r := decode_file w fpath v (fs st) in
    (r, add_event (EvDecodeFile fpath r.2) st)).

Definition NewStargzSnapshotterService (w : World) (root : string) (config : Config)
    : M (Handle + Err) :=
  step (λ st,
    let r := service_NewStargzSnapshotterService w root config in
    (r, add_event (EvNewService root config r) st)).

(** [defer]: the call is pushed; it runs when [main] returns. *)
Definition defer (d : Deferred) : M () :=
  step (λ st, ((), set_deferred (d :: deferred st) (add_event (EvDefer d) st))).

Definition grpc_NewServer : M () := call EvNewServer.
Definition snapshotservice_FromSnapshotter (rs : Handle) : M () :=
  call (EvFromSnapshotter rs).
Definition snapshotsapi_RegisterSnapshotsServer : M () := call EvRegister.

Definition MkdirAll (w : World) (path : string) (perm : N) : M (option Errno) :=
  step (λ st,
    let r := os_MkdirAll (fault w OpMkdirAll) path perm (fs st) in
    (r.2, set_fs r.1 (add_event (EvMkdirAll path perm r.2) st))).

Definition RemoveAll (w : World) (path : string) : M (option Errno) :=
  step (λ st,
    let r := os_RemoveAll (fault w OpRemoveAll) path (fs st) in
    (r.2, set_fs r.1 (add_event (EvRemoveAll path r.2) st))).

Definition Listen (w : World) (network addr : string) : M (option Errno) :=
  step (λ st,
    let r := net_Listen (fault w OpListen) addr (fs st) in
    (r.2, set_fs r.1 (add_event (EvListen network addr r.2) st))).

(** The [go] statement of lines 117-121: from here on [rpc.Serve] runs next
    to [main], and the schedule of the world applies. *)
Definition go_Serve (w : World) (addr : string) : M () :=
  step (λ st,
    ((), set_sched (schedule w) (set_serve_task (Some addr)
           (add_event (EvGoServe addr) st)))).

(** [make(chan os.Signal, n)]. *)
Definition make_chan (n : nat) : M () :=
  step (λ st, ((), set_chan n [] (add_event (EvMakeChan n) st))).

(** [signal.Notify(c, sigs...)]. *)
Definition signal_Notify (sigs : list Signal) : M () :=
  step (λ st,
    ((), set_subscribed (sigs ++ subscribed st) (add_event (EvNotify sigs) st))).

(** [<-c] once the receiver is ready: take the oldest value of the buffer;
    with an empty buffer the rest of the system runs until a value is there.
    When the schedule ends first, the receive blocks for good. *)
Fixpoint recv_loop (sch : list (list Async)) (st : State) : Res Signal :=
  match chan_buf st with
  | s :: buf =>
      Done s (add_event (EvRecv s) (set_chan (chan_cap st) buf (set_sched sch st)))
  | [] =>
      match sch with
      | [] => Halt Waiting (set_sched [] st)
      | evs :: rest =>
          match async_steps evs st with
          | Done _ st' => recv_loop rest st'
          | Halt x st' => Halt x (set_sched rest st')
          end
      end
  end.

Definition recv_ready : M Signal := λ st, recv_loop (sched st) st.

(** [<-c]: a scheduling point, then the receive. *)
Definition chan_recv : M Signal := yield ;; recv_ready.

(** [rs.Close()]. *)
Definition Close (w : World) (rs : Handle) : M (option Err) :=
  step (λ st, (rs_Close w rs, add_event (EvClose rs (rs_Close w rs)) st)).

(** ** The program *)

(** Lines 126-130. *)
Definition waitForSIGINT : M () :=
  make_chan 1 ;;
  signal_Notify [os_Interrupt] ;;
  _ ← chan_recv ;
  mret ().

(** Lines 54-124.  The flags are those [flag.Parse] produced. *)
Definition main (w : World) (f : Flags) : M () :=
  match logrus_ParseLevel w (logLevel f) with
  | inr err => Fatalf (Some err) "failed to prepare logger" []
  | inl lvl =>
      if printVersion f then
        fmt_Println ["containerd-stargz-grpc"; version_Version w; version_Revision w]
      else
        logrus_SetLevel lvl ;;
        logrus_SetFormatter (JSONFormatter RFC3339NanoFixed) ;;
        golog_SetOutput (WriterLevel DebugLevel) ;;
        '(config, err) ← toml_DecodeFile w (configPath f) zero_Config ;
        match err with
        | Some e =>
            if negb (os_IsNotExist e && String.eqb (configPath f) defaultConfigPath)
            then Fatalf (Some e) "failed to load config file %q" [configPath f]
            else mret ()
        | None => mret ()
        end ;;
        r ← NewStargzSnapshotterService w (rootDir f) config ;
        match r with
        | inr e => Fatalf (Some e) "failed to configure snapshotter" []
        | inl rs =>
            defer (DeferClose rs) ;;
            grpc_NewServer ;;
            snapshotservice_FromSnapshotter rs ;;
            snapshotsapi_RegisterSnapshotsServer ;;
            err ← MkdirAll w (filepath_Dir w (address f)) 448 (* 0700 *) ;
            match err with
            | Some e =>
                Fatalf (Some (SysErr e)) "failed to create directory %q"
                  [filepath_Dir w (address f)]
            | None => mret ()
            end ;;
            err ← RemoveAll w (address f) ;
            match err with
            | Some e => Fatalf (Some (SysErr e)) "failed to remove %q" [address f]
            | None => mret ()
            end ;;
            err ← Listen w "unix" (address f) ;
            match err with
            | Some e =>
                Fatalf (Some (SysErr e)) "error on listen socket %q" [address f]
            | None => mret ()
            end ;;
            go_Serve w (address f) ;;
            waitForSIGINT ;;
            log_Info "Got SIGINT"
        end
  end.

(** The closure of lines 87-91; the value [rs.Close] returns is dropped. *)
Definition run_deferred_call (w : World) (d : Deferred) : M () :=
  match d with
  | DeferClose rs =>
      log_Debug "Closing the snapshotter" ;;
      _ ← Close w rs ;
      log_Info "Exiting"
  end.

(** The deferred calls run last in, first out. *)
Fixpoint run_deferred_calls (w : World) (ds : list Deferred) : M () :=
  match ds with
  | [] => mret ()
  | d :: ds' => run_deferred_call w d ;; run_deferred_calls w ds'
  end.

Definition run_deferred (w : World) : M () := λ st,
  run_deferred_calls w (deferred st) (set_deferred [] st).

(** A run of the process: [main], then on its return the deferred calls,
    then exit status 0. *)
Definition run (w : World) (f : Flags) : Status * State :=
  match (main w f ;; run_deferred w) (init w) with
  | Done _ st => (Exit 0, st)
  | Halt x st => (x, st)
  end.

Definition status_of (w : World) (f : Flags) : Status := (run w f).1.
Definition trace_of (w : World) (f : Flags) : list Event := trace (run w f).2.

(** The deferred call and exit, from the return of [main] on. *)
Definition finish (w : World) (r : Res ()) : Status * State :=
  match r with
  | Done _ st =>
      match run_deferred w st with
      | Done _ st' => (Exit 0, st')
      | Halt x st' => (x, st')
      end
  | Halt x st => (x, st)
  end.

(** ** What the rest of the system can change *)

(** [st'] comes from [st] by asynchronous steps that let the process run on,
    [evs] being what happened: nothing [main] wrote is touched, the buffer
    only gains subscribed signals that were delivered, and the serve
    goroutine may have ended. *)
Record quiet (evs : list Async) (st st' : State) : Prop := {
  quiet_trace : trace st' = trace st;
  quiet_fs : fs st' = fs st;
  quiet_log_level : log_level st' = log_level st;
  quiet_deferred : deferred st' = deferred st;
  quiet_subscribed : subscribed st' = subscribed st;
  quiet_chan_cap : chan_cap st' = chan_cap st;
  quiet_chan_buf :
    ∀ s, s ∈ chan_buf st' →
         s ∈ chan_buf st ∨ (s ∈ subscribed st ∧ Deliver s ∈ evs);
  quiet_serve_task : serve_task st' = serve_task st ∨ serve_task st' = None
}.

(** Line 119 and the exit that follows it. *)
Definition serve_fatal (err : Err) (addr : string) : list Event :=
  [EvServeReturn err;
   EvLog FatalLevel (Some err) "error on serving via socket %q" [addr]].

(** The run was ended from outside [main]: line 119 after [rpc.Serve]
    returned an error, or a signal with no subscription. *)
Inductive stopped (evs : list Async) (st : State) : Status → State → Prop :=
  | stopped_serve err addr st' :
      ServeReturns (Some err) ∈ evs →
      serve_task st = Some addr →
      trace st' = trace st ++ serve_fatal err addr →
      fs st' = fs st →
      log_level st' = log_level st →
      stopped evs st (Exit 1) st'
  | stopped_signal s st' :
      Deliver s ∈ evs →
      (s ∉ subscribed st) →
      default_exits s = true →
      trace st' = trace st →
      fs st' = fs st →
      log_level st' = log_level st →
      stopped evs st (Killed s) st'.

(** The same, counted against the schedule of the state. *)
Definition later (st st' : State) : Prop :=
  ∃ evs, quiet evs st st' ∧ evs ⊆ concat (sched st) ∧
         concat (sched st') ⊆ concat (sched st).

Definition halted (st : State) (x : Status) (st' : State) : Prop :=
  ∃ evs, stopped evs st x st' ∧ evs ⊆ concat (sched st).

(** ** From the [go] statement to the end of the process *)

(** What [main] and the deferred call do after the [go] statement when
    nothing stops them. *)
Definition shutdown_events (w : World) (rs : Handle) : list Event :=
  [EvMakeChan 1;
   EvNotify [SIGINT];
   EvRecv SIGINT;
   EvLog InfoLevel None "Got SIGINT" [];
   EvLog DebugLevel None "Closing the snapshotter" [];
   EvClose rs (rs_Close w rs);
   EvLog InfoLevel None "Exiting" []].

(** The ways a run that stands at [st0], right after the [go] statement,
    can end: the shutdown ran to its end; [rpc.Serve] returned an error
    after [k] of its steps; a signal without subscription came after [k]
    steps; the receive of the third step blocks for good. *)
Inductive tail_outcome (w : World) (addr : string) (rs : Handle) (st0 : State)
    : Status * State → Prop :=
  | tail_done st :
      trace st = trace st0 ++ shutdown_events w rs →
      fs st = fs st0 →
      log_level st = log_level st0 →
      Deliver SIGINT ∈ concat (schedule w) →
      tail_outcome w addr rs st0 (Exit 0, st)
  | tail_serve_failed (k : nat) err st :
      k ≤ 6 →
      ServeReturns (Some err) ∈ concat (schedule w) →
      (3 ≤ k → Deliver SIGINT ∈ concat (schedule w)) →
      trace st = trace st0 ++ take k (shutdown_events w rs) ++ serve_fatal err addr →
      fs st = fs st0 →
      log_level st = log_level st0 →
      tail_outcome w addr rs st0 (Exit 1, st)
  | tail_killed (k : nat) s st :
      k ≤ 6 →
      Deliver s ∈ concat (schedule w) →
      default_exits s = true →
      (s = SIGINT → k ≤ 1) →
      (3 ≤ k → Deliver SIGINT ∈ concat (schedule w)) →
      trace st = trace st0 ++ take k (shutdown_events w rs) →
      fs st = fs st0 →
      log_level st = log_level st0 →
      tail_outcome w addr rs st0 (Killed s, st)
  | tail_waiting st :
      trace st = trace st0 ++ take 2 (shutdown_events w rs) →
      fs st = fs st0 →
      log_level st = log_level st0 →
      tail_outcome w addr rs st0 (Waiting, st).

(** Where a run stands after the events [evs] that follow [st0]. *)
Record progress (w : World) (addr : string) (st0 : State)
    (evs : list Event) (subs : list Signal) (st : State) : Prop := {
  progress_trace : trace st = trace st0 ++ evs;
  progress_fs : fs st = fs st0;
  progress_log_level : log_level st = log_level st0;
  progress_subscribed : subscribed st = subs;
  progress_serve_task : serve_task st = Some addr ∨ serve_task st = None;
  progress_sched : concat (sched st) ⊆ concat (schedule w)
}.
(** ** The ways a run can go *)

Definition logging_events (lvl : Level) : list Event :=
  [EvSetLevel lvl;
   EvSetFormatter (JSONFormatter RFC3339NanoFixed);
   EvGologSetOutput (WriterLevel DebugLevel)].

(** The events up to the registration of the service, line 100. *)
Definition setup_events (f : Flags) (lvl : Level) (cfg : Config)
    (cerr : option Err) (rs : Handle) : list Event :=
  logging_events lvl ++
  [EvDecodeFile (configPath f) cerr;
   EvNewService (rootDir f) cfg (inl rs);
   EvDefer (DeferClose rs);
   EvNewServer;
   EvFromSnapshotter rs;
   EvRegister].

(** The test of line 79, negated: no error, or a missing file at the
    default path. *)
Definition config_tolerated (f : Flags) (cerr : option Err) : bool :=
  match cerr with
  | Some e => os_IsNotExist e && String.eqb (configPath f) defaultConfigPath
  | None => true
  end.

(** The level parsed and the version flag not set: lines 56-63 passed. *)
Definition logging_ready (w : World) (f : Flags) (lvl : Level) : Prop :=
  logrus_ParseLevel w (logLevel f) = inl lvl ∧ printVersion f = false.

(** Lines 79-81 passed with the configuration [cfg]. *)
Definition config_ready (w : World) (f : Flags) (lvl : Level)
    (cfg : Config) (cerr : option Err) : Prop :=
  logging_ready w f lvl ∧
  decode_file w (configPath f) zero_Config (fs0 w) = (cfg, cerr) ∧
  config_tolerated f cerr = true.

(** Lines 83-86 passed with the snapshotter [rs]. *)
Definition service_ready (w : World) (f : Flags) (lvl : Level)
    (cfg : Config) (cerr : option Err) (rs : Handle) : Prop :=
  config_ready w f lvl cfg cerr ∧
  service_NewStargzSnapshotterService w (rootDir f) cfg = inl rs.

Inductive Outcome (w : World) (f : Flags) : Status * State → Prop :=
  | out_bad_level err st :
      logrus_ParseLevel w (logLevel f) = inr err →
      trace st = [EvLog FatalLevel (Some err) "failed to prepare logger" []] →
      fs st = fs0 w →
      log_level st = InfoLevel →
      Outcome w f (Exit 1, st)
  | out_version lvl st :
      logrus_ParseLevel w (logLevel f) = inl lvl →
      printVersion f = true →
      trace st = [EvPrintln ["containerd-stargz-grpc"; version_Version w;
                             version_Revision w]] →
      fs st = fs0 w →
      log_level st = InfoLevel →
      Outcome w f (Exit 0, st)
  | out_bad_config lvl cfg err st :
      logging_ready w f lvl →
      decode_file w (configPath f) zero_Config (fs0 w) = (cfg, Some err) →
      config_tolerated f (Some err) = false →
      trace st = logging_events lvl ++
        [EvDecodeFile (configPath f) (Some err);
         EvLog FatalLevel (Some err) "failed to load config file %q" [configPath f]] →
      fs st = fs0 w →
      log_level st = lvl →
      Outcome w f (Exit 1, st)
  | out_bad_service lvl cfg cerr err st :
      config_ready w f lvl cfg cerr →
      service_NewStargzSnapshotterService w (rootDir f) cfg = inr err →
      trace st = logging_events lvl ++
        [EvDecodeFile (configPath f) cerr;
         EvNewService (rootDir f) cfg (inr err);
         EvLog FatalLevel (Some err) "failed to configure snapshotter" []] →
      fs st = fs0 w →
      log_level st = lvl →
      Outcome w f (Exit 1, st)
  | out_bad_mkdir lvl cfg cerr rs fs1 e st :
      service_ready w f lvl cfg cerr rs →
      os_MkdirAll (fault w OpMkdirAll) (filepath_Dir w (address f)) 448 (fs0 w)
        = (fs1, Some e) →
      trace st = setup_events f lvl cfg cerr rs ++
        [EvMkdirAll (filepath_Dir w (address f)) 448 (Some e);
         EvLog FatalLevel (Some (SysErr e)) "failed to create directory %q"
           [filepath_Dir w (address f)]] →
      fs st = fs1 →
      log_level st = lvl →
      Outcome w f (Exit 1, st)
  | out_bad_remove lvl cfg cerr rs fs1 fs2 e st :
      service_ready w f lvl cfg cerr rs →
      os_MkdirAll (fault w OpMkdirAll) (filepath_Dir w (address f)) 448 (fs0 w)
        = (fs1, None) →
      os_RemoveAll (fault w OpRemoveAll) (address f) fs1 = (fs2, Some e) →
      trace st = setup_events f lvl cfg cerr rs ++
        [EvMkdirAll (filepath_Dir w (address f)) 448 None;
         EvRemoveAll (address f) (Some e);
         EvLog FatalLevel (Some (SysErr e)) "failed to remove %q" [address f]] →
      fs st = fs2 →
      log_level st = lvl →
      Outcome w f (Exit 1, st)
  | out_bad_listen lvl cfg cerr rs fs1 fs2 fs3 e st :
      service_ready w f lvl cfg cerr rs →
      os_MkdirAll (fault w OpMkdirAll) (filepath_Dir w (address f)) 448 (fs0 w)
        = (fs1, None) →
      os_RemoveAll (fault w OpRemoveAll) (address f) fs1 = (fs2, None) →
      net_Listen (fault w OpListen) (address f) fs2 = (fs3, Some e) →
      trace st = setup_events f lvl cfg cerr rs ++
        [EvMkdirAll (filepath_Dir w (address f)) 448 None;
         EvRemoveAll (address f) None;
         EvListen "unix" (address f) (Some e);
         EvLog FatalLevel (Some (SysErr e)) "error on listen socket %q" [address f]] →
      fs st = fs3 →
      log_level st = lvl →
      Outcome w f (Exit 1, st)
  | out_serving lvl cfg cerr rs fs1 fs2 fs3 st0 r :
      service_ready w f lvl cfg cerr rs →
      os_MkdirAll (fault w OpMkdirAll) (filepath_Dir w (address f)) 448 (fs0 w)
        = (fs1, None) →
      os_RemoveAll (fault w OpRemoveAll) (address f) fs1 = (fs2, None) →
      net_Listen (fault w OpListen) (address f) fs2 = (fs3, None) →
      trace st0 = setup_events f lvl cfg cerr rs ++
        [EvMkdirAll (filepath_Dir w (address f)) 448 None;
         EvRemoveAll (address f) None;
         EvListen "unix" (address f) None;
         EvGoServe (address f)] →
      fs st0 = fs3 →
      log_level st0 = lvl →
      tail_outcome w (address f) rs st0 r →
      Outcome w f r.


(** ** Vocabulary of the properties *)

(** The calls of the transport provisioning, lines 102-116. *)
Definition is_provision (e : Event) : bool :=
  match e with
  | EvMkdirAll _ _ _ | EvRemoveAll _ _ | EvListen _ _ _ => true
  | _ => false
  end.

Definition provision_events (tr : list Event) : list Event :=
  List.filter is_provision tr.

(** A fatal log entry: the error and the message that names the operation. *)
Definition fatal_entry (err : Err) (format : string) (args : list string) : Event :=
  EvLog FatalLevel (Some err) format args.


(** The file system at the end of the run. *)
Definition fs_of (w : World) (f : Flags) : FS := fs (run w f).2.

(** The calls of the four bootstrap steps: logging initialization,
    configuration resolution, snapshotter construction and transport
    provisioning. *)
Definition is_bootstrap (e : Event) : bool :=
  match e with
  | EvSetLevel _ | EvSetFormatter _ | EvGologSetOutput _
  | EvDecodeFile _ _ | EvNewService _ _ _
  | EvMkdirAll _ _ _ | EvRemoveAll _ _ | EvListen _ _ _ => true
  | _ => false
  end.

(** The start of the serve task. *)
Definition is_go (e : Event) : bool :=
  match e with
  | EvGoServe _ => true
  | _ => false
  end.

(** The calls of [waitForSIGINT]. *)
Definition is_wait (e : Event) : bool :=
  match e with
  | EvMakeChan _ | EvNotify _ | EvRecv _ => true
  | _ => false
  end.

(** The interrupt taken from the channel. *)
Definition is_interrupt (e : Event) : bool :=
  match e with
  | EvRecv SIGINT => true
  | _ => false
  end.

Definition is_close (e : Event) : bool :=
  match e with
  | EvClose _ _ => true
  | _ => false
  end.

Definition is_log (e : Event) : bool :=
  match e with
  | EvLog _ _ _ _ => true
  | _ => false
  end.

(** No [P] event at or after a [Q] event: every [P] event comes strictly
    before every [Q] event. *)
Fixpoint all_before (P Q : Event → bool) (tr : list Event) : bool :=
  match tr with
  | [] => true
  | e :: tr' =>
      (negb (Q e) || forallb (λ x, negb (P x)) tr) && all_before P Q tr'
  end.

(** Every [Q] event has a [P] event strictly before it, or [seen] holds. *)
Fixpoint each_after (P Q : Event → bool) (seen : bool) (tr : list Event) : bool :=
  match tr with
  | [] => true
  | e :: tr' => (negb (Q e) || seen) && each_after P Q (seen || P e) tr'
  end.

(** How often [rs.Close] was called. *)
Definition close_count (tr : list Event) : nat :=
  length (List.filter is_close tr).

(** An interrupt notification was observed. *)
Definition interrupt_observed (tr : list Event) : bool :=
  existsb is_interrupt tr.

(** ** Worlds for examples *)

(** A level parser that accepts the names the flag documents and nothing
    else. *)
Definition documented_ParseLevel (s : string) : Level + Err :=
  match level_of_name s with
  | Some l => inl l
  | None => inr (LibErr ("not a valid logrus Level: " +:+ s))
  end.

Fixpoint dirname_aux (s : string) : option string :=
  match s with
  | EmptyString => None
  | String c s' =>
      match dirname_aux s' with
      | Some d => Some (String c d)
      | None => if String.eqb (String c EmptyString) "/" then Some EmptyString else None
      end
  end.

(** [filepath.Dir] on a clean path: all but the last element. *)
Definition dirname (s : string) : string :=
  match dirname_aux s with
  | Some EmptyString => "/"
  | Some d => d
  | None => "."
  end.

(** A world with the given files, result of [rs.Close] and schedule, where
    the engine starts and nothing else fails. *)
Definition example_world (files : FS) (close : option Err)
    (sch : list (list Async)) : World :=
  {| logrus_ParseLevel := documented_ParseLevel;
     toml_Decode := λ bs v, ([("document", bs)], None);
     filepath_Dir := dirname;
     service_NewStargzSnapshotterService := λ _ _, inl 1;
     rs_Close := λ _, close;
     version_Version := "v0.1.0";
     version_Revision := "8a7a0f1";
     fs0 := files;
     fault := λ _, None;
     schedule := sch |}.

(** The interrupt comes while [main] is blocked in the receive. *)
Definition interrupt_while_waiting : list (list Async) :=
  [[]; []; []; [Deliver SIGINT]].

(** The interrupt is taken from the channel, then [rpc.Serve] returns an
    error before the deferred call is reached. *)
Definition serve_fails_after_interrupt : list (list Async) :=
  [[]; []; []; [Deliver SIGINT];
   [ServeReturns (Some (LibErr "accept unix: use of closed network connection"))]].

(** What the version flag prints. *)
Definition version_output (w : World) : Event :=
  EvPrintln ["containerd-stargz-grpc"; version_Version w; version_Revision w].


Definition is_notify (e : Event) : bool :=
  match e with
  | EvNotify _ => true
  | _ => false
  end.


(** The run ends at line 80: status 1 after the fatal entry for the
    configuration file. *)
Definition config_load_fatal (w : World) (f : Flags) (lvl : Level) (e : Err)
    : Prop :=
  status_of w f = Exit 1 ∧
  trace_of w f = logging_events lvl ++
    [EvDecodeFile (configPath f) (Some e);
     fatal_entry e "failed to load config file %q" [configPath f]].

(** The run goes past line 81: the engine constructor is the next call and
    gets [cfg], and no fatal entry for the configuration file is logged. *)
Definition config_accepted (w : World) (f : Flags) (lvl : Level)
    (cfg : Config) (cerr : option Err) : Prop :=
  (∃ tl, trace_of w f = logging_events lvl ++
     EvDecodeFile (configPath f) cerr ::
     EvNewService (rootDir f) cfg
       (service_NewStargzSnapshotterService w (rootDir f) cfg) :: tl) ∧
  ∀ err args,
    fatal_entry err "failed to load config file %q" args ∉ trace_of w f.


Definition flags_with (level : string) (version : bool) : Flags :=
  {| address := defaultAddress;
     configPath := defaultConfigPath;
     logLevel := level;
     rootDir := defaultRootDir;
     printVersion := version |}.

(** The entries written to the log. *)
Definition log_entries (tr : list Event) : list Event := List.filter is_log tr.

(** The world where [rs.Close] returns what [close] says. *)
Definition with_Close (close : Handle → option Err) (w : World) : World :=
  {| logrus_ParseLevel := logrus_ParseLevel w;
     toml_Decode := toml_Decode w;
     filepath_Dir := filepath_Dir w;
     service_NewStargzSnapshotterService := service_NewStargzSnapshotterService w;
     rs_Close := close;
     version_Version := version_Version w;
     version_Revision := version_Revision w;
     fs0 := fs0 w;
     fault := fault w;
     schedule := schedule w |}.

(** The event without what [rs.Close] returned. *)
Definition forget_close_result (e : Event) : Event :=
  match e with
  | EvClose rs _ => EvClose rs None
  | _ => e
  end.

(** Two states that differ at most in what the calls of [rs.Close] in their
    traces returned. *)
Record similar (st1 st2 : State) : Prop := {
  similar_trace :
    forget_close_result <$> trace st1 = forget_close_result <$> trace st2;
  similar_fs : fs st1 = fs st2;
  similar_log_level : log_level st1 = log_level st2;
  similar_log_formatter : log_formatter st1 = log_formatter st2;
  similar_golog_output : golog_output st1 = golog_output st2;
  similar_deferred : deferred st1 = deferred st2;
  similar_serve_task : serve_task st1 = serve_task st2;
  similar_subscribed : subscribed st1 = subscribed st2;
  similar_chan_cap : chan_cap st1 = chan_cap st2;
  similar_chan_buf : chan_buf st1 = chan_buf st2;
  similar_sched : sched st1 = sched st2
}.

(** Two results that end the same way in similar states; the values
    returned are not compared. *)
Definition similar_res {A B} (r1 : Res A) (r2 : Res B) : Prop :=
  match r1, r2 with
  | Done _ st1, Done _ st2 => similar st1 st2
  | Halt x1 st1, Halt x2 st2 => x1 = x2 ∧ similar st1 st2
  | _, _ => False
  end.

(** ** Vocabulary of further properties *)

(** The call that installs the JSON formatter, line 65. *)
Definition is_json_formatter (e : Event) : bool :=
  match e with
  | EvSetFormatter (JSONFormatter _) => true
  | _ => false
  end.

Definition is_set_level (e : Event) : bool :=
  match e with
  | EvSetLevel _ => true
  | _ => false
  end.

(** The entry of line 58, logged when the level does not parse. *)
Definition is_logger_fatal (e : Event) : bool :=
  match e with
  | EvLog FatalLevel _ format _ => String.eqb format "failed to prepare logger"
  | _ => false
  end.

(** Every other log entry. *)
Definition is_later_entry (e : Event) : bool :=
  is_log e && negb (is_logger_fatal e).

Definition is_new_service (e : Event) : bool :=
  match e with
  | EvNewService _ _ _ => true
  | _ => false
  end.

(** The entries of the shutdown, lines 123, 88 and 90. *)
Definition got_sigint : Event := EvLog InfoLevel None "Got SIGINT" [].
Definition closing : Event := EvLog DebugLevel None "Closing the snapshotter" [].
Definition exiting : Event := EvLog InfoLevel None "Exiting" [].

Definition is_got_sigint (e : Event) : bool :=
  match e with
  | EvLog InfoLevel None format [] => String.eqb format "Got SIGINT"
  | _ => false
  end.

Definition is_closing (e : Event) : bool :=
  match e with
  | EvLog DebugLevel None format [] => String.eqb format "Closing the snapshotter"
  | _ => false
  end.

Definition is_exiting (e : Event) : bool :=
  match e with
  | EvLog InfoLevel None format [] => String.eqb format "Exiting"
  | _ => false
  end.

(** Every [Q] event has a [P] event right before it; [prev] says whether
    the event before the list is a [P] event. *)
Fixpoint right_after (P Q : Event → bool) (prev : bool) (tr : list Event) : bool :=
  match tr with
  | [] => true
  | e :: tr' => (negb (Q e) || prev) && right_after P Q (P e) tr'
  end.

Definition is_fatal_entry (e : Event) : bool :=
  match e with
  | EvLog FatalLevel _ _ _ => true
  | _ => false
  end.

(** The state right after the [go] statement of a run whose bootstrap went
    through. *)
Definition serving_state (w : World) (f : Flags) (lvl : Level) (cfg : Config)
    (cerr : option Err) (rs : Handle) (fs3 : FS) : State :=
  {| trace := setup_events f lvl cfg cerr rs ++
       [EvMkdirAll (filepath_Dir w (address f)) 448 None;
        EvRemoveAll (address f) None;
        EvListen "unix" (address f) None;
        EvGoServe (address f)];
     fs := fs3;
     log_level := lvl;
     log_formatter := JSONFormatter RFC3339NanoFixed;
     golog_output := WriterLevel DebugLevel;
     deferred := [DeferClose rs];
     serve_task := Some (address f);
     subscribed := [];
     chan_cap := 0;
     chan_buf := [];
     sched := schedule w |}.


(** * Proofs *)

(** ** Asynchronous steps *)

Lemma quiet_refl st : quiet [] st st.
Proof. split; auto. Qed.

Lemma quiet_weaken evs evs' st st' :
  evs ⊆ evs' → quiet evs st st' → quiet evs' st st'.
Proof.
  intros Hsub [T F L D S C B K]. split; auto.
  intros s Hs. destruct (B s Hs) as [Hb|[Hb Hd]]; auto.
Qed.

Lemma quiet_trans evs1 evs2 st1 st2 st3 :
  quiet evs1 st1 st2 → quiet evs2 st2 st3 → quiet (evs1 ++ evs2) st1 st3.
Proof.
  intros [T1 F1 L1 D1 S1 C1 B1 K1] [T2 F2 L2 D2 S2 C2 B2 K2].
  split; try congruence.
  - intros s Hs. destruct (B2 s Hs) as [Hs2|[Hs2 Hd]].
    + destruct (B1 s Hs2) as [Hb|[Hb Hd]]; [by left|].
      right. split; [done|]. apply elem_of_app. by left.
    + right. split; [congruence|]. apply elem_of_app. by right.
  - destruct K2 as [K2|K2]; rewrite K2; auto.
Qed.

Lemma stopped_weaken evs evs' st x st' :
  evs ⊆ evs' → stopped evs st x st' → stopped evs' st x st'.
Proof.
  intros Hsub [err addr st1 Hin Htask Htr Hfs Hl|s st1 Hin Hns Hdef Htr Hfs Hl].
  - apply stopped_serve with (err := err) (addr := addr); auto.
  - apply stopped_signal; auto.
Qed.

Lemma stopped_after evs1 evs2 st1 st2 x st3 :
  quiet evs1 st1 st2 → stopped evs2 st2 x st3 → stopped (evs1 ++ evs2) st1 x st3.
Proof.
  intros [T1 F1 L1 D1 S1 C1 B1 K1]
    [err addr st Hin Htask Htr Hfs Hl|s st Hin Hns Hdef Htr Hfs Hl].
  - apply stopped_serve with (err := err) (addr := addr); try congruence.
    + apply elem_of_app. by right.
    + destruct K1 as [K1|K1]; congruence.
  - apply stopped_signal; try congruence.
    apply elem_of_app. by right.
Qed.

Lemma async_step_spec a st :
  match async_step a st with
  | Done _ st' => quiet [a] st st' ∧ sched st' = sched st
  | Halt x st' => stopped [a] st x st' ∧ sched st' = sched st
  end.
Proof.
  assert (Hnil : quiet [a] st st).
  { apply (quiet_weaken []); [apply list_subseteq_nil | apply quiet_refl]. }
  assert (Ha : a ∈ [a]) by (apply list_elem_of_singleton; done).
  destruct a as [[err|]|s]; simpl.
  - destruct (serve_task st) as [addr|] eqn:Htask; [|done].
    split; [|done].
    apply stopped_serve with (err := err) (addr := addr); simpl; auto.
    by rewrite <- app_assoc.
  - destruct (serve_task st) as [addr|] eqn:Htask; [|done].
    split; [|done]. split; simpl; auto.
  - destruct (decide (s ∈ subscribed st)) as [Hin|Hnin].
    + unfold chan_send. case_decide; [|done].
      split; [|done]. split; simpl; auto.
      intros s' Hs'. apply elem_of_app in Hs' as [Hs'|Hs']; [by left|].
      apply list_elem_of_singleton in Hs'. subst s'. by right.
    + destruct (default_exits s) eqn:Hdef; [|done].
      split; [|done]. by apply stopped_signal.
Qed.

Lemma async_steps_spec evs st :
  match async_steps evs st with
  | Done _ st' => quiet evs st st' ∧ sched st' = sched st
  | Halt x st' => stopped evs st x st' ∧ sched st' = sched st
  end.
Proof.
  revert st. induction evs as [|a evs IH]; intros st; simpl.
  - split; [apply quiet_refl | done].
  - unfold mbind, M_bind. pose proof (async_step_spec a st) as Ha.
    destruct (async_step a st) as [[] st1|x st1]; destruct Ha as [Ha Hs].
    + specialize (IH st1).
      destruct (async_steps evs st1) as [[] st2|x st2]; destruct IH as [IH1 IH2].
      * split; [|congruence]. apply (quiet_trans [a] evs _ _ _ Ha IH1).
      * split; [|congruence]. apply (stopped_after [a] evs _ _ _ _ Ha IH1).
    + split; [|done]. apply (stopped_weaken [a]); [|done].
      apply list_subseteq_skip, list_subseteq_nil.
Qed.

Lemma later_refl st : later st st.
Proof.
  exists []. split; [apply quiet_refl|]. split; [apply list_subseteq_nil|done].
Qed.

Lemma later_trans st1 st2 st3 : later st1 st2 → later st2 st3 → later st1 st3.
Proof.
  intros (evs1 & Hq1 & Hin1 & Hs1) (evs2 & Hq2 & Hin2 & Hs2).
  exists (evs1 ++ evs2). split; [by eapply quiet_trans|]. split.
  - apply list_subseteq_app_iff_l. split; [done|]. by transitivity (concat (sched st2)).
  - by transitivity (concat (sched st2)).
Qed.

Lemma halted_after st1 st2 x st3 :
  later st1 st2 → halted st2 x st3 → halted st1 x st3.
Proof.
  intros (evs1 & Hq1 & Hin1 & Hs1) (evs2 & Hst & Hin2).
  exists (evs1 ++ evs2). split; [by eapply stopped_after|].
  apply list_subseteq_app_iff_l. split; [done|]. by transitivity (concat (sched st2)).
Qed.

Lemma quiet_set_sched evs st st' a b :
  quiet evs st st' → quiet evs (set_sched a st) (set_sched b st').
Proof. intros [T F L D S C B K]. split; auto. Qed.

Lemma stopped_set_sched evs st x st' a b :
  stopped evs st x st' → stopped evs (set_sched a st) x (set_sched b st').
Proof.
  intros [err addr st1 Hin Htask Htr Hfs Hl|s st1 Hin Hns Hdef Htr Hfs Hl].
  - apply stopped_serve with (err := err) (addr := addr); auto.
  - apply stopped_signal; auto.
Qed.

Lemma set_sched_id st : set_sched (sched st) st = st.
Proof. by destruct st. Qed.

Lemma later_head evs rest st st' :
  quiet evs st st' →
  later (set_sched (evs :: rest) st) (set_sched rest st').
Proof.
  intros Hq. exists evs. split; [by apply quiet_set_sched|]. simpl. split.
  - by apply list_subseteq_app_l.
  - by apply list_subseteq_app_r.
Qed.

Lemma halted_head evs rest st x st' :
  stopped evs st x st' →
  halted (set_sched (evs :: rest) st) x (set_sched rest st').
Proof.
  intros Hst. exists evs. split; [by apply stopped_set_sched|]. simpl.
  by apply list_subseteq_app_l.
Qed.

Lemma yield_spec st :
  match yield st with
  | Done _ st' => later st st'
  | Halt x st' => halted st x st'
  end.
Proof.
  unfold yield. destruct (sched st) as [|evs rest] eqn:Hsch.
  - apply later_refl.
  - pose proof (async_steps_spec evs (set_sched rest st)) as H.
    assert (E1 : set_sched (evs :: rest) (set_sched rest st) = st)
      by (rewrite <- Hsch; by destruct st).
    destruct (async_steps evs (set_sched rest st)) as [[] st'|x st'];
      destruct H as [H Hs]; simpl in Hs;
      assert (E2 : set_sched rest st' = st')
        by (rewrite <- Hs; apply set_sched_id).
    + apply (later_head _ rest) in H. by rewrite E1, E2 in H.
    + apply (halted_head _ rest) in H. by rewrite E1, E2 in H.
Qed.

Lemma step_spec {A} (f : State → A * State) st :
  match step f st with
  | Done a st'' => ∃ st', later st st' ∧ a = (f st').1 ∧ st'' = (f st').2
  | Halt x st' => halted st x st'
  end.
Proof.
  unfold step, mbind, M_bind. pose proof (yield_spec st) as H.
  destruct (yield st) as [[] st'|x st']; [|done].
  simpl. eauto.
Qed.

Lemma recv_loop_spec sch st :
  match recv_loop sch st with
  | Done s st'' =>
      ∃ st' buf, later (set_sched sch st) st' ∧ chan_buf st' = s :: buf ∧
        st'' = add_event (EvRecv s) (set_chan (chan_cap st') buf st')
  | Halt x st' =>
      (x = Waiting ∧ later (set_sched sch st) st' ∧ chan_buf st' = []) ∨
      halted (set_sched sch st) x st'
  end.
Proof.
  revert st. induction sch as [|evs rest IH]; intros st; simpl.
  - destruct (chan_buf st) as [|s buf] eqn:Hbuf.
    + left. split; [done|]. split; [apply later_refl|done].
    + exists (set_sched [] st), buf. split; [apply later_refl|]. done.
  - destruct (chan_buf st) as [|s buf] eqn:Hbuf.
    + pose proof (async_steps_spec evs st) as H.
      destruct (async_steps evs st) as [[] st1|x st1]; destruct H as [H Hs].
      * apply (later_head _ rest) in H.
        specialize (IH st1). destruct (recv_loop rest st1) as [s st2|x st2].
        -- destruct IH as (st' & buf & Hl' & Hb & ->). exists st', buf.
           split; [by eapply later_trans|done].
        -- destruct IH as [(-> & Hl' & Hb)|Hh].
           ++ left. split; [done|]. split; [by eapply later_trans|done].
           ++ right. by eapply halted_after.
      * right. by apply halted_head.
    + exists (set_sched (evs :: rest) st), buf. split; [apply later_refl|]. done.
Qed.

Lemma recv_ready_spec st :
  match recv_ready st with
  | Done s st'' =>
      ∃ st' buf, later st st' ∧ chan_buf st' = s :: buf ∧
        st'' = add_event (EvRecv s) (set_chan (chan_cap st') buf st')
  | Halt x st' =>
      (x = Waiting ∧ later st st' ∧ chan_buf st' = []) ∨ halted st x st'
  end.
Proof.
  unfold recv_ready. pose proof (recv_loop_spec (sched st) st) as H.
  by rewrite set_sched_id in H.
Qed.

Lemma chan_recv_spec st :
  match chan_recv st with
  | Done s st'' =>
      ∃ st' buf, later st st' ∧ chan_buf st' = s :: buf ∧
        st'' = add_event (EvRecv s) (set_chan (chan_cap st') buf st')
  | Halt x st' =>
      (x = Waiting ∧ later st st' ∧ chan_buf st' = []) ∨ halted st x st'
  end.
Proof.
  unfold chan_recv, mbind, M_bind. pose proof (yield_spec st) as H.
  destruct (yield st) as [[] st1|x st1]; [|by right].
  pose proof (recv_ready_spec st1) as H'.
  destruct (recv_ready st1) as [s st2|x st2].
  - destruct H' as (st' & buf & Hl & ?). exists st', buf.
    split; [by eapply later_trans|done].
  - destruct H' as [(-> & Hl & ?)|Hh].
    + left. split; [done|]. split; [by eapply later_trans|done].
    + right. by eapply halted_after.
Qed.

(** ** From the [go] statement on *)

Section Progress.
Context (w : World) (addr : string) (st0 : State).

Lemma progress_later evs subs st st' :
  progress w addr st0 evs subs st → later st st' →
  progress w addr st0 evs subs st'.
Proof.
  intros [T F L S K C] (a & [T' F' L' D' S' C' B' K'] & Ha & Hc).
  split; try congruence.
  - destruct K' as [K'|K']; rewrite K'; auto.
  - by transitivity (concat (sched st)).
Qed.

Lemma progress_halted evs subs st x st' :
  progress w addr st0 evs subs st → halted st x st' →
  (∃ err, x = Exit 1 ∧ ServeReturns (Some err) ∈ concat (schedule w) ∧
      trace st' = trace st0 ++ evs ++ serve_fatal err addr ∧
      fs st' = fs st0 ∧ log_level st' = log_level st0) ∨
  (∃ s, x = Killed s ∧ Deliver s ∈ concat (schedule w) ∧
      default_exits s = true ∧ (s ∉ subs) ∧
      trace st' = trace st0 ++ evs ∧
      fs st' = fs st0 ∧ log_level st' = log_level st0).
Proof.
  intros [T F L S K C] (a & Hst & Ha).
  destruct Hst as [err addr' st' Hin Htask Htr Hfs Hl|s st' Hin Hns Hdef Htr Hfs Hl].
  - left. exists err. split; [done|]. split; [by apply C, Ha|].
    assert (addr' = addr) as -> by (destruct K; congruence).
    split; [|split; congruence].
    rewrite Htr, T. by rewrite <- app_assoc.
  - right. exists s. split; [done|]. split; [by apply C, Ha|].
    split; [done|]. split; [congruence|]. split; [congruence|]. split; congruence.
Qed.

Lemma progress_add_event evs subs st e :
  progress w addr st0 evs subs st →
  progress w addr st0 (evs ++ [e]) subs (add_event e st).
Proof.
  intros [T F L S K C]. split; simpl; auto. rewrite T. by rewrite <- app_assoc.
Qed.

Lemma progress_set_chan evs subs st n buf :
  progress w addr st0 evs subs st →
  progress w addr st0 evs subs (set_chan n buf st).
Proof. intros [T F L S K C]. by split. Qed.

Lemma progress_set_subscribed evs subs st subs' :
  progress w addr st0 evs subs st →
  progress w addr st0 evs subs' (set_subscribed subs' st).
Proof. intros [T F L S K C]. by split. Qed.

Lemma progress_set_deferred evs subs st ds :
  progress w addr st0 evs subs st →
  progress w addr st0 evs subs (set_deferred ds st).
Proof. intros [T F L S K C]. by split. Qed.

End Progress.

Lemma later_chan_buf st st' s :
  later st st' → s ∈ chan_buf st' →
  s ∈ chan_buf st ∨ (s ∈ subscribed st ∧ Deliver s ∈ concat (sched st)).
Proof.
  intros (a & [T' F' L' D' S' C' B' K'] & Ha & Hc) Hs.
  destruct (B' s Hs) as [Hb|[Hb Hd]]; [by left|]. right. split; [done|by apply Ha].
Qed.

Lemma later_deferred st st' : later st st' → deferred st' = deferred st.
Proof. by intros (a & [T' F' L' D' S' C' B' K'] & Ha & Hc). Qed.

Lemma run_unfold w f : run w f = finish w (main w f (init w)).
Proof.
  unfold run, finish, mbind, M_bind. by destruct (main w f (init w)).
Qed.
Ltac next_step H :=
  match goal with
  | |- context [step ?f ?st] =>
      pose proof (step_spec f st) as H;
      destruct (step f st) as [? ?|? ?]; cbn [finish]
  end.

Lemma serving_spec w addr rs st0 :
  sched st0 = schedule w →
  deferred st0 = [DeferClose rs] →
  subscribed st0 = [] →
  serve_task st0 = Some addr →
  tail_outcome w addr rs st0
    (finish w ((waitForSIGINT ;; log_Info "Got SIGINT") st0)).
Proof.
  intros Hsch Hdef Hsub Htask.
  assert (P0 : progress w addr st0 [] [] st0).
  { split; auto. - by rewrite app_nil_r. - by rewrite Hsch. }
  unfold waitForSIGINT, make_chan, signal_Notify, log_Info, call, mbind, M_bind.
  (* make(chan os.Signal, 1) *)
  next_step H1.
  2:{ destruct (progress_halted _ _ _ _ _ _ _ _ P0 H1)
        as [(err & -> & ? & ? & ? & ?)|(s & -> & ? & ? & ? & ? & ? & ?)].
      - by apply tail_serve_failed with (k := 0) (err := err); [lia| |lia| | |].
      - by apply tail_killed with (k := 0); [lia| | |lia|lia| | |]. }
  destruct H1 as (st0' & Hl0 & _ & ->). cbn [fst snd].
  pose proof (progress_set_chan _ _ _ _ _ _ 1 []
                (progress_add_event _ _ _ _ _ _ (EvMakeChan 1)
                   (progress_later _ _ _ _ _ _ _ P0 Hl0))) as P1.
  set (st1 := set_chan 1 [] (add_event (EvMakeChan 1) st0')) in *.
  (* signal.Notify(c, os.Interrupt) *)
  next_step H2.
  2:{ destruct (progress_halted _ _ _ _ _ _ _ _ P1 H2)
        as [(err & -> & ? & ? & ? & ?)|(s & -> & ? & ? & ? & ? & ? & ?)].
      - by apply tail_serve_failed with (k := 1) (err := err); [lia| |lia| | |].
      - by apply tail_killed with (k := 1); [lia| | |lia|lia| | |]. }
  destruct H2 as (st1' & Hl1 & _ & ->). cbn [fst snd].
  assert (Hbuf1 : chan_buf st1' = []).
  { destruct (chan_buf st1') as [|s buf] eqn:Hb; [done|].
    destruct (later_chan_buf st1 st1' s Hl1) as [Hs|[Hs _]].
    - rewrite Hb. left.
    - by apply elem_of_nil in Hs.
    - rewrite (progress_subscribed _ _ _ _ _ _ P1) in Hs. by apply elem_of_nil in Hs. }
  pose proof (progress_later _ _ _ _ _ _ _ P1 Hl1) as P1'.
  assert (Hsub1 : subscribed st1' = []) by apply P1'.
  pose proof (progress_set_subscribed _ _ _ _ _ _ [SIGINT]
                (progress_add_event _ _ _ _ _ _ (EvNotify [SIGINT]) P1')) as P2.
  unfold os_Interrupt. rewrite Hsub1. cbn [app].
  set (st2 := set_subscribed [SIGINT] (add_event (EvNotify [SIGINT]) st1')) in *.
  assert (Hbuf2 : chan_buf st2 = []) by exact Hbuf1.
  (* <-c *)
  pose proof (chan_recv_spec st2) as H3.
  destruct (chan_recv st2) as [s st3|x st3]; cbn [finish].
  2:{ destruct H3 as [(-> & Hl2 & Hb)|H3].
      - pose proof (progress_later _ _ _ _ _ _ _ P2 Hl2) as [T F L S K C].
        by apply tail_waiting.
      - destruct (progress_halted _ _ _ _ _ _ _ _ P2 H3)
          as [(err & -> & ? & ? & ? & ?)|(s & -> & ? & ? & Hs & ? & ? & ?)].
        + by apply tail_serve_failed with (k := 2) (err := err); [lia| |lia| | |].
        + apply tail_killed with (k := 2); [lia|done|done| |lia|done|done|done].
          intros ->. exfalso. apply Hs. left. }
  destruct H3 as (st2' & buf & Hl2 & Hb & ->).
  assert (Hs : s = SIGINT ∧ Deliver SIGINT ∈ concat (schedule w)).
  { destruct (later_chan_buf st2 st2' s Hl2) as [Hs|[Hs Hd]].
    - rewrite Hb. left.
    - rewrite Hbuf2 in Hs. by apply elem_of_nil in Hs.
    - apply list_elem_of_singleton in Hs. subst s. split; [done|].
      apply (progress_sched _ _ _ _ _ _ P2). exact Hd. }
  destruct Hs as [-> Hint].
  pose proof (progress_add_event _ _ _ _ _ _ (EvRecv SIGINT)
                (progress_set_chan _ _ _ _ _ _ (chan_cap st2') buf
                   (progress_later _ _ _ _ _ _ _ P2 Hl2))) as P3.
  assert (Hdef3 : deferred (add_event (EvRecv SIGINT) (set_chan (chan_cap st2') buf st2'))
                  = [DeferClose rs]).
  { cbn. rewrite (later_deferred _ _ Hl2). cbn.
    rewrite (later_deferred _ _ Hl1). cbn.
    rewrite (later_deferred _ _ Hl0). exact Hdef. }
  set (st3 := add_event (EvRecv SIGINT) (set_chan (chan_cap st2') buf st2')) in *.
  cbn [mret M_ret].
  (* log.G(ctx).Info("Got SIGINT") *)
  next_step H4.
  2:{ destruct (progress_halted _ _ _ _ _ _ _ _ P3 H4)
        as [(err & -> & ? & ? & ? & ?)|(s & -> & ? & ? & Hs & ? & ? & ?)].
      - by apply tail_serve_failed with (k := 3) (err := err); [lia| | | | |].
      - apply tail_killed with (k := 3); [lia|done|done| |done|done|done|done].
        intros ->. exfalso. apply Hs. left. }
  destruct H4 as (st3' & Hl3 & _ & ->). cbn [fst snd].
  pose proof (progress_add_event _ _ _ _ _ _ (EvLog InfoLevel None "Got SIGINT" [])
                (progress_later _ _ _ _ _ _ _ P3 Hl3)) as P4.
  unfold run_deferred. cbn [deferred add_event].
  rewrite (later_deferred _ _ Hl3), Hdef3.
  cbn [run_deferred_calls run_deferred_call].
  unfold log_Debug, Close, log_Info, call, mbind, M_bind.
  pose proof (progress_set_deferred _ _ _ _ _ _ [] P4) as P4'.
  set (st4 := set_deferred [] (add_event (EvLog InfoLevel None "Got SIGINT" []) st3')) in *.
  (* the deferred call: log.G(ctx).Debug("Closing the snapshotter") *)
  next_step H5.
  2:{ destruct (progress_halted _ _ _ _ _ _ _ _ P4' H5)
        as [(err & -> & ? & ? & ? & ?)|(s & -> & ? & ? & Hs & ? & ? & ?)].
      - by apply tail_serve_failed with (k := 4) (err := err); [lia| | | | |].
      - apply tail_killed with (k := 4); [lia|done|done| |done|done|done|done].
        intros ->. exfalso. apply Hs. left. }
  destruct H5 as (st4' & Hl4 & _ & ->). cbn [fst snd].
  pose proof (progress_add_event _ _ _ _ _ _
                (EvLog DebugLevel None "Closing the snapshotter" [])
                (progress_later _ _ _ _ _ _ _ P4' Hl4)) as P5.
  set (st5 := add_event (EvLog DebugLevel None "Closing the snapshotter" []) st4') in *.
  (* rs.Close() *)
  next_step H6.
  2:{ destruct (progress_halted _ _ _ _ _ _ _ _ P5 H6)
        as [(err & -> & ? & ? & ? & ?)|(s & -> & ? & ? & Hs & ? & ? & ?)].
      - by apply tail_serve_failed with (k := 5) (err := err); [lia| | | | |].
      - apply tail_killed with (k := 5); [lia|done|done| |done|done|done|done].
        intros ->. exfalso. apply Hs. left. }
  destruct H6 as (st5' & Hl5 & _ & ->). cbn [fst snd].
  pose proof (progress_add_event _ _ _ _ _ _ (EvClose rs (rs_Close w rs))
                (progress_later _ _ _ _ _ _ _ P5 Hl5)) as P6.
  set (st6 := add_event (EvClose rs (rs_Close w rs)) st5') in *.
  (* log.G(ctx).Info("Exiting") *)
  next_step H7.
  2:{ destruct (progress_halted _ _ _ _ _ _ _ _ P6 H7)
        as [(err & -> & ? & ? & ? & ?)|(s & -> & ? & ? & Hs & ? & ? & ?)].
      - by apply tail_serve_failed with (k := 6) (err := err); [lia| | | | |].
      - apply tail_killed with (k := 6); [lia|done|done| |done|done|done|done].
        intros ->. exfalso. apply Hs. left. }
  destruct H7 as (st6' & Hl6 & _ & ->). cbn [fst snd].
  pose proof (progress_add_event _ _ _ _ _ _ (EvLog InfoLevel None "Exiting" [])
                (progress_later _ _ _ _ _ _ _ P6 Hl6)) as [T F L S K C].
  by apply tail_done.
Qed.
Lemma bind_eq {A B} (m : M A) (k : A → M B) st :
  (m ≫= k) st =
  match m st with
  | Done a st' => k a st'
  | Halt x st' => Halt x st'
  end.
Proof. reflexivity. Qed.

(** Before the [go] statement the schedule is empty and a step is its
    effect. *)
Lemma step_idle {A} (f : State → A * State) st :
  sched st = [] → step f st = Done (f st).1 (f st).2.
Proof. intros H. unfold step, yield, effect. rewrite bind_eq. by rewrite H. Qed.

Ltac state_simpl :=
  cbn [fst snd trace fs log_level log_formatter golog_output deferred
       serve_task subscribed chan_cap chan_buf sched add_event set_fs
       set_log_level set_log_formatter set_golog_output set_deferred
       set_serve_task set_subscribed set_chan set_sched init app mret M_ret].

Ltac idle_step :=
  rewrite bind_eq;
  unfold logrus_SetLevel, logrus_SetFormatter, golog_SetOutput, toml_DecodeFile,
    NewStargzSnapshotterService, defer, grpc_NewServer,
    snapshotservice_FromSnapshotter, snapshotsapi_RegisterSnapshotsServer,
    MkdirAll, RemoveAll, Listen, go_Serve, fmt_Println, call;
  rewrite step_idle by reflexivity;
  state_simpl.

Ltac fatal_step := rewrite bind_eq; unfold Fatalf; cbn [finish].

Theorem run_outcome w f : Outcome w f (run w f).
Proof.
  rewrite run_unfold. unfold main.
  destruct (logrus_ParseLevel w (logLevel f)) as [lvl|perr] eqn:Hparse.
  2:{ by eapply out_bad_level. }
  destruct (printVersion f) eqn:Hver.
  { by eapply out_version. }
  assert (Hlog : logging_ready w f lvl) by done.
  do 4 idle_step.
  destruct (decode_file w (configPath f) zero_Config (fs0 w)) as [cfg cerr] eqn:Hcfg.
  state_simpl.
  destruct (config_tolerated f cerr) eqn:Htol.
  2:{ destruct cerr as [e|]; [|done]. cbn [config_tolerated] in Htol.
      rewrite Htol. cbn [negb]. fatal_step.
      by eapply out_bad_config. }
  assert (Hconf : config_ready w f lvl cfg cerr) by done.
  rewrite bind_eq.
  assert (Hpass :
    match cerr with
    | Some e =>
        if negb (os_IsNotExist e && String.eqb (configPath f) defaultConfigPath)
        then Fatalf (Some e) "failed to load config file %q" [configPath f]
        else mret ()
    | None => mret ()
    end = (mret () : M ())).
  { destruct cerr as [e|]; [|done]. cbn [config_tolerated] in Htol. by rewrite Htol. }
  rewrite Hpass. state_simpl.
  idle_step.
  destruct (service_NewStargzSnapshotterService w (rootDir f) cfg)
    as [rs|serr] eqn:Hsvc.
  2:{ unfold Fatalf. cbn [finish]. by eapply out_bad_service. }
  assert (Hserv : service_ready w f lvl cfg cerr rs) by done.
  do 5 idle_step.
  destruct (os_MkdirAll (fault w OpMkdirAll) (filepath_Dir w (address f)) 448 (fs0 w))
    as [fs1 [e1|]] eqn:Hmk; state_simpl.
  { fatal_step. by eapply out_bad_mkdir. }
  rewrite bind_eq. state_simpl. idle_step.
  destruct (os_RemoveAll (fault w OpRemoveAll) (address f) fs1)
    as [fs2 [e2|]] eqn:Hrm; state_simpl.
  { fatal_step. by eapply out_bad_remove. }
  rewrite bind_eq. state_simpl. idle_step.
  destruct (net_Listen (fault w OpListen) (address f) fs2)
    as [fs3 [e3|]] eqn:Hli; state_simpl.
  { fatal_step. by eapply out_bad_listen. }
  rewrite bind_eq. state_simpl. idle_step.
  eapply out_serving; [exact Hserv|exact Hmk|exact Hrm|exact Hli| | | |].
  4:{ apply serving_spec; reflexivity. }
  all: reflexivity.
Qed.

(** ** The file system operations *)

Lemma within_refl p : within p p = true.
Proof. unfold within. by rewrite String.eqb_refl. Qed.

Lemma fault_not_in_use flt : fault_errno flt ≠ EADDRINUSE.
Proof. by destruct flt. Qed.

(** After a removal that returned nil nothing is left at the path or
    below it. *)
Lemma os_RemoveAll_clears flt p (fs fs' : FS) k :
  os_RemoveAll flt p fs = (fs', None) → within p k = true → fs' !! k = None.
Proof.
  unfold os_RemoveAll. intros H Hk. case_decide as Hempty.
  - injection H as <-. destruct (fs !! k) as [v|] eqn:Hv; [|done].
    assert (Hin : filter (λ kv, within p kv.1 = true) fs !! k = Some v)
      by (by apply map_lookup_filter_Some).
    rewrite Hempty in Hin. by rewrite lookup_empty in Hin.
  - destruct flt; [done|]. injection H as <-.
    apply map_lookup_filter_None. right. intros v _. simpl. by rewrite Hk.
Qed.



Lemma net_Listen_free flt p (fs fs' : FS) err :
  fs !! p = None → net_Listen flt p fs = (fs', err) → err ≠ Some EADDRINUSE.
Proof.
  unfold net_Listen. intros ->. destruct flt as [x|]; intros H; injection H as <- <-.
  - intros [=E]. by apply (fault_not_in_use x).
  - done.
Qed.




(** ** Order of events in a trace *)

Lemma forallb_lookup {A} (p : A → bool) (l : list A) i x :
  forallb p l = true → l !! i = Some x → p x = true.
Proof.
  revert i. induction l as [|a l IH]; intros i; simpl; [done|].
  intros [Ha Hl]%andb_prop. destruct i as [|i]; simpl.
  - by intros [= <-].
  - by apply IH.
Qed.

Lemma all_before_sound P Q tr i j e g :
  all_before P Q tr = true →
  tr !! i = Some e → tr !! j = Some g →
  P e = true → Q g = true → i < j.
Proof.
  revert i j. induction tr as [|a tr IH]; intros i j; simpl; [done|].
  intros [Hhere Hrest]%andb_prop Hi Hj HP HQ.
  destruct j as [|j]; simpl in Hj.
  - injection Hj as ->. rewrite HQ in Hhere. simpl in Hhere.
    assert (Hn : negb (P e) = true).
    { eapply (forallb_lookup (λ x, negb (P x)) (g :: tr) i); [exact Hhere|exact Hi]. }
    by rewrite HP in Hn.
  - destruct i as [|i]; [lia|]. simpl in Hi.
    apply (proj1 (Nat.succ_lt_mono i j)). by eapply IH.
Qed.

Lemma each_after_sound P Q seen tr i e :
  each_after P Q seen tr = true →
  tr !! i = Some e → Q e = true →
  seen = true ∨ ∃ j e', j < i ∧ tr !! j = Some e' ∧ P e' = true.
Proof.
  revert seen i. induction tr as [|a tr IH]; intros seen i; simpl; [done|].
  intros [Hhere Hrest]%andb_prop Hi HQ.
  destruct i as [|i]; simpl in Hi.
  - injection Hi as ->. rewrite HQ in Hhere. by left.
  - destruct (IH _ _ Hrest Hi HQ) as [Hs|(j & e' & Hj & He' & HP)].
    + apply orb_prop in Hs as [Hs|Hs]; [by left|].
      right. exists 0, a. split; [lia|]. by split.
    + right. exists (S j), e'. split; [lia|]. by split.
Qed.

(** ** Tactics for the characterisation of runs *)

(** Case analysis on how the run of [w] and [f] went, with the trace of
    each case written out. *)
Ltac run_cases w f :=
  unfold status_of, trace_of;
  let Hrun := fresh "Hrun" in
  pose proof (run_outcome w f) as Hrun;
  destruct (run w f) as [x st];
  cbn [fst snd];
  inversion Hrun as
    [perr st' Hparse Htr Hfs Hlvl
    |lvl st' Hparse Hver Htr Hfs Hlvl
    |lvl cfg err st' Hlog Hcfg Htol Htr Hfs Hlvl
    |lvl cfg cerr err st' Hconf Hsvc Htr Hfs Hlvl
    |lvl cfg cerr rs fs1 e st' Hserv Hmk Htr Hfs Hlvl
    |lvl cfg cerr rs fs1 fs2 e st' Hserv Hmk Hrm Htr Hfs Hlvl
    |lvl cfg cerr rs fs1 fs2 fs3 e st' Hserv Hmk Hrm Hli Htr Hfs Hlvl
    |lvl cfg cerr rs fs1 fs2 fs3 st0 r Hserv Hmk Hrm Hli Htr0 Hfs0 Hlvl0 Htail];
  subst;
  [ | | | | | | |
    inversion Htail as
      [st' Htr Hfs Hlvl Hint
      |k serr st' Hk Hserr Hint Htr Hfs Hlvl
      |k s st' Hk Hsig Hdef Hsint Hint Htr Hfs Hlvl
      |st' Htr Hfs Hlvl];
    subst; rewrite Htr0 in Htr ];
  rewrite Htr.

(** An event is in a list that is written out. *)
Ltac elem_here :=
  unfold setup_events, logging_events, shutdown_events, serve_fatal;
  cbn; repeat first [apply list_elem_of_here | apply list_elem_of_further].

(** The same with the number of shutdown steps split into its cases. *)
Ltac run_cases_steps w f :=
  run_cases w f;
  try match goal with
      | Hk : ?k ≤ 6 |- _ =>
          destruct k as [|[|[|[|[|[|[|k]]]]]]]; [ | | | | | | |exfalso; lia]
      end.

(** Membership in a list that is written out: one goal per element the
    event can be equal to. *)
Ltac split_or H :=
  match type of H with
  | _ ∨ _ => destruct H as [H|H]; [|split_or H]
  | False => destruct H
  | _ => idtac
  end.

Ltac in_trace H :=
  unfold setup_events, logging_events, shutdown_events, serve_fatal in H;
  cbn in H; rewrite ?elem_of_cons, ?elem_of_nil in H;
  split_or H; try discriminate H.

(** The equations a run that got past a bootstrap step has. *)
Ltac ready :=
  unfold service_ready, config_ready, logging_ready, config_tolerated in *;
  destruct_and?.

(** Two equations with the same left-hand side are merged. *)
Ltac same_lhs :=
  repeat match goal with
         | H1 : ?a = ?b, H2 : ?a = ?c |- _ =>
             tryif is_var a then fail else (rewrite H1 in H2; simplify_eq)
         end.

(** ** Runs of the model *)

(** Default flags, no configuration file, no interrupt: the process binds
    the default socket path, starts serving and stays in the receive. *)
Example default_start_keeps_running :
  let w := example_world ∅ None [] in
  status_of w default_flags = Waiting ∧
  last (trace_of w default_flags) = Some (EvNotify [SIGINT]) ∧
  fs_of w default_flags !! defaultAddress = Some Socket.
Proof. vm_compute. done. Qed.

(** A configuration file that is missing at an explicit path: the process
    exits before any directory or socket is made. *)
Example missing_config_is_fatal :
  let w := example_world ∅ None [] in
  let f := {| address := defaultAddress;
              configPath := "/no/such/file";
              logLevel := "info";
              rootDir := defaultRootDir;
              printVersion := false |} in
  status_of w f = Exit 1 ∧
  provision_events (trace_of w f) = [] ∧
  fs_of w f !! defaultAddress = None.
Proof. vm_compute. done. Qed.

(** A socket left at the socket path by an earlier run is removed, and the
    bind succeeds. *)
Example stale_socket_is_replaced :
  let w := example_world
             (<[defaultAddress := Socket]>
                (<["/run/containerd-stargz-grpc" := Dir 448]> ∅))
             None interrupt_while_waiting in
  provision_events (trace_of w default_flags) =
    [EvMkdirAll "/run/containerd-stargz-grpc" 448 None;
     EvRemoveAll defaultAddress None;
     EvListen "unix" defaultAddress None] ∧
  status_of w default_flags = Exit 0.
Proof. vm_compute. done. Qed.

(** A directory with a file in it at the socket path is removed with the
    file. *)
Example stale_directory_is_removed :
  let w := example_world
             (<[defaultAddress +:+ "/leftover" := File "x"]>
                (<[defaultAddress := Dir 493]> ∅))
             None [] in
  fs_of w default_flags !! defaultAddress = Some Socket ∧
  fs_of w default_flags !! (defaultAddress +:+ "/leftover") = None.
Proof. vm_compute. done. Qed.

(** SIGTERM during the receive: the process ends there and the deferred call
    does not run. *)
Example sigterm_ends_the_process :
  let w := example_world ∅ None [[]; []; []; [Deliver SIGTERM]] in
  status_of w default_flags = Killed SIGTERM ∧
  close_count (trace_of w default_flags) = 0.
Proof. vm_compute. done. Qed.

(** ** C1: configuration resolution *)

Lemma decode_file_absent w p v (fs : FS) :
  fs !! p = None → decode_file w p v fs = (v, Some (SysErr ENOENT)).
Proof. intros H. unfold decode_file, os_ReadFile. by rewrite H. Qed.

(** A not-exist error comes from the read, which leaves the value as it
    was. *)
Lemma decode_file_not_exist w p v (fs : FS) cfg e :
  decode_file w p v fs = (cfg, Some e) → os_IsNotExist e = true → cfg = v.
Proof.
  unfold decode_file.
  destruct (os_ReadFile (fault w OpReadFile) p fs) as [bs|en].
  - destruct (toml_Decode w bs v) as [v' [msg|]]; cbn; [|done].
    by intros [= <- <-].
  - by intros [= <- <-].
Qed.

Lemma config_fatal_run w f lv cf er :
  logging_ready w f lv →
  decode_file w (configPath f) zero_Config (fs0 w) = (cf, Some er) →
  config_tolerated f (Some er) = false →
  config_load_fatal w f lv er.
Proof.
  intros Hl Hd Ht. unfold config_load_fatal.
  run_cases w f; ready; same_lhs; cbn in *; try congruence.
  by split.
Qed.

Lemma config_accepted_run w f lv cf ce :
  logging_ready w f lv →
  decode_file w (configPath f) zero_Config (fs0 w) = (cf, ce) →
  config_tolerated f ce = true →
  config_accepted w f lv cf ce.
Proof.
  intros Hl Hd Ht. unfold config_accepted.
  run_cases_steps w f; ready; same_lhs; cbn in *; try congruence.
  all: split; [|intros err' args Hin; in_trace Hin].
  all: try match goal with
           | H : service_NewStargzSnapshotterService _ _ _ = _ |- _ => rewrite H
           end.
  all: unfold setup_events, logging_events; cbn; eauto.
Qed.

(** C1.  Once the level is parsed and the version flag is not set, the
    configuration file is decoded.  When that fails the process exits with
    status 1 right after the fatal entry "failed to load config file", save
    in one case: the error says the file does not exist and the path is the
    default path; then the configuration is still the zero value, the
    engine constructor is called with it and no such entry is logged.  A
    missing file at another path is fatal, a missing file at the default
    path is not. *)
Theorem config_resolution w f lvl :
  logging_ready w f lvl →
  let r := decode_file w (configPath f) zero_Config (fs0 w) in
  (∀ e, r.2 = Some e →
     ¬ (os_IsNotExist e = true ∧ configPath f = defaultConfigPath) →
     config_load_fatal w f lvl e) ∧
  (∀ e, r.2 = Some e →
     os_IsNotExist e = true → configPath f = defaultConfigPath →
     r.1 = zero_Config ∧ config_accepted w f lvl zero_Config (Some e)) ∧
  (r.2 = None → config_accepted w f lvl r.1 None) ∧
  (fs0 w !! configPath f = None → configPath f ≠ defaultConfigPath →
     config_load_fatal w f lvl (SysErr ENOENT)) ∧
  (fs0 w !! configPath f = None → configPath f = defaultConfigPath →
     config_accepted w f lvl zero_Config (Some (SysErr ENOENT))).
Proof.
  intros Hl. cbv zeta.
  destruct (decode_file w (configPath f) zero_Config (fs0 w)) as [cfg cerr] eqn:Hd.
  cbn [fst snd].
  assert (Hfatal : ∀ e, cerr = Some e →
            ¬ (os_IsNotExist e = true ∧ configPath f = defaultConfigPath) →
            config_load_fatal w f lvl e).
  { intros e -> Hno. apply (config_fatal_run _ _ _ cfg); [done|done|].
    cbn. apply andb_false_iff.
    destruct (os_IsNotExist e); [right|by left].
    apply String.eqb_neq. intros Heq. by apply Hno. }
  assert (Hzero : ∀ e, cerr = Some e →
            os_IsNotExist e = true → configPath f = defaultConfigPath →
            cfg = zero_Config ∧ config_accepted w f lvl zero_Config (Some e)).
  { intros e -> He Hp.
    assert (cfg = zero_Config) as -> by (by eapply decode_file_not_exist).
    split; [done|]. apply config_accepted_run; [done|done|].
    cbn. rewrite He, Hp. by rewrite String.eqb_refl. }
  split; [exact Hfatal|]. split; [exact Hzero|]. split; [|split].
  - intros ->. by apply config_accepted_run.
  - intros Habs Hne. rewrite (decode_file_absent _ _ _ _ Habs) in Hd.
    injection Hd as <- <-. apply Hfatal; [done|]. by intros [_ ?].
  - intros Habs Heq. rewrite (decode_file_absent _ _ _ _ Habs) in Hd.
    injection Hd as <- <-. by apply Hzero.
Qed.

(** C1 at work: no file at an explicit path. *)
Lemma config_resolution_witness :
  let w := example_world ∅ None [] in
  let f := {| address := defaultAddress;
              configPath := "/no/such/file";
              logLevel := "info";
              rootDir := defaultRootDir;
              printVersion := false |} in
  logging_ready w f InfoLevel ∧
  config_load_fatal w f InfoLevel (SysErr ENOENT).
Proof.
  cbv zeta. split; [by split|].
  refine (proj1 (proj2 (proj2 (proj2
            (config_resolution (example_world ∅ None []) _ InfoLevel _)))) _ _).
  - by split.
  - reflexivity.
  - discriminate.
Defined.

(** ** C2: the version flag *)

(** C2, as stated, fails: the level is parsed before the version flag is
    looked at, so with the version flag set and a level that does not parse
    nothing is printed and the process exits with status 1. *)
Lemma version_flag_with_bad_level :
  let w := example_world ∅ None [] in
  let f := flags_with "verbose" true in
  printVersion f = true ∧
  status_of w f = Exit 1 ∧
  trace_of w f =
    [fatal_entry (LibErr "not a valid logrus Level: verbose")
       "failed to prepare logger" []].
Proof. vm_compute. done. Qed.

(** C2, amended.  With the version flag set and a level that parses, the
    run prints the one line with the name, the version and the revision
    and exits with status 0; it makes no other call and leaves the file
    system as it was, whatever the address, the configuration path and the
    root directory are.  With a level that does not parse it logs the
    fatal entry for the logger and exits with status 1 instead. *)
Theorem version_print w f :
  printVersion f = true →
  match logrus_ParseLevel w (logLevel f) with
  | inl _ =>
      status_of w f = Exit 0 ∧
      trace_of w f = [version_output w] ∧
      fs_of w f = fs0 w
  | inr err =>
      status_of w f = Exit 1 ∧
      trace_of w f = [fatal_entry err "failed to prepare logger" []] ∧
      fs_of w f = fs0 w
  end.
Proof.
  intros Hv. unfold fs_of.
  run_cases w f; ready; same_lhs; try congruence.
  - by rewrite Hparse.
  - by rewrite Hparse.
Qed.

(** C2 at work: the version flag with the default level and another
    address. *)
Lemma version_print_witness :
  let w := example_world ∅ None [] in
  let f := {| address := "/tmp/other.sock";
              configPath := "/no/such/file";
              logLevel := "info";
              rootDir := "/nowhere";
              printVersion := true |} in
  printVersion f = true ∧
  status_of w f = Exit 0 ∧
  trace_of w f = [EvPrintln ["containerd-stargz-grpc"; "v0.1.0"; "8a7a0f1"]] ∧
  fs_of w f = ∅.
Proof.
  cbv zeta. split; [reflexivity|].
  exact (version_print (example_world ∅ None [])
           {| address := "/tmp/other.sock";
              configPath := "/no/such/file";
              logLevel := "info";
              rootDir := "/nowhere";
              printVersion := true |} eq_refl).
Defined.

(** ** C3: the log level *)




(** ** C4: transport provisioning *)

(** C4.  The provisioning calls of a run are, in this order, [os.MkdirAll]
    on the parent directory of the socket path with permission 0700,
    [os.RemoveAll] on the socket path and [net.Listen "unix"] on it; each
    is made once, the removal follows every successful directory creation
    whatever is at the path, a call that fails is the last one and the
    process exits with status 1 right after the fatal log entry for it, and
    the listen call never fails with EADDRINUSE.  No provisioning call is
    made only when no snapshotter was constructed. *)
Theorem transport_provisioning w f :
  let tr := trace_of w f in
  let dir := filepath_Dir w (address f) in
  let addr := address f in
  (provision_events tr = [] ∧
     ∀ root cfg rs, EvNewService root cfg (inl rs) ∉ tr) ∨
  (∃ e, provision_events tr = [EvMkdirAll dir 448 (Some e)] ∧
     status_of w f = Exit 1 ∧
     last tr = Some (fatal_entry (SysErr e) "failed to create directory %q" [dir])) ∨
  (∃ e, provision_events tr =
          [EvMkdirAll dir 448 None; EvRemoveAll addr (Some e)] ∧
     status_of w f = Exit 1 ∧
     last tr = Some (fatal_entry (SysErr e) "failed to remove %q" [addr])) ∨
  (∃ e, provision_events tr =
          [EvMkdirAll dir 448 None; EvRemoveAll addr None;
           EvListen "unix" addr (Some e)] ∧
     e ≠ EADDRINUSE ∧
     status_of w f = Exit 1 ∧
     last tr = Some (fatal_entry (SysErr e) "error on listen socket %q" [addr])) ∨
  provision_events tr =
    [EvMkdirAll dir 448 None; EvRemoveAll addr None; EvListen "unix" addr None].
Proof.
  cbv zeta. run_cases_steps w f; try by repeat right.
  - left. split; [done|]. intros root cfg rs Hin. in_trace Hin.
  - left. split; [done|]. intros root cfg rs Hin. in_trace Hin.
  - left. split; [done|]. intros root cfg' rs Hin. in_trace Hin.
  - left. split; [done|]. intros root cfg' rs Hin. in_trace Hin.
  - right. left. by exists e.
  - right. right. left. by exists e.
  - right. right. right. left. exists e. split; [done|]. split; [|done].
    intros ->. eapply net_Listen_free; [|exact Hli|done].
    eapply os_RemoveAll_clears; [exact Hrm|apply within_refl].
Qed.

(** ** C5: the bootstrap comes before the serve task, the serve task before
    the wait *)

(** C5.  In the trace of every run, every call of a bootstrap step
    (logging initialization, configuration resolution, snapshotter
    construction, transport provisioning) comes strictly before the start
    of the serve task, and the start of the serve task comes strictly
    before every call of [waitForSIGINT].  When the serve task is started,
    what precedes it is the complete bootstrap, each step with a successful
    result; and [waitForSIGINT] is only entered once the serve task is
    started. *)
Theorem bootstrap_before_serve w f :
  let tr := trace_of w f in
  let dir := filepath_Dir w (address f) in
  let addr := address f in
  (∀ i j e a, tr !! i = Some e → tr !! j = Some (EvGoServe a) →
     (is_bootstrap e = true → i < j) ∧ (is_wait e = true → j < i)) ∧
  (∀ a, EvGoServe a ∈ tr →
     ∃ lvl cfg cerr rs post,
       service_ready w f lvl cfg cerr rs ∧
       tr = setup_events f lvl cfg cerr rs ++
            [EvMkdirAll dir 448 None; EvRemoveAll addr None;
             EvListen "unix" addr None] ++
            EvGoServe addr :: post) ∧
  (∀ e, e ∈ tr → is_wait e = true → EvGoServe addr ∈ tr).
Proof.
  cbv zeta.
  assert (Hord : all_before is_bootstrap is_go (trace_of w f) = true ∧
                 all_before is_go is_wait (trace_of w f) = true).
  { run_cases_steps w f; by split. }
  destruct Hord as [Hbg Hgw]. split; [|split].
  - intros i j e a Hi Hj. split; intros He.
    + by eapply (all_before_sound _ _ _ i j e (EvGoServe a) Hbg).
    + by eapply (all_before_sound _ _ _ j i (EvGoServe a) e Hgw).
  - clear Hbg Hgw. run_cases_steps w f; intros a Hin; in_trace Hin.
    all: injection Hin as ->.
    all: eexists _, cfg, cerr, rs, _; split; [exact Hserv|];
         unfold setup_events, logging_events; cbn; reflexivity.
  - clear Hbg Hgw. run_cases_steps w f; intros ev Hin Hw; in_trace Hin;
      subst ev; try discriminate Hw; elem_here.
Qed.

(** ** C6: [rs.Close] and the interrupt *)

Lemma is_interrupt_inv e : is_interrupt e = true → e = EvRecv SIGINT.
Proof. by destruct e as [| | | | | | | | | | | | | | | | | |[]|]. Qed.

(** C6, as stated, fails: here the interrupt is observed and [rs.Close] is
    never called, because [rpc.Serve] returns an error after the receive
    and line 119 exits the process without running the deferred call. *)
Lemma close_skipped_after_interrupt :
  let w := example_world ∅ None serve_fails_after_interrupt in
  interrupt_observed (trace_of w default_flags) = true ∧
  close_count (trace_of w default_flags) = 0 ∧
  status_of w default_flags = Exit 1.
Proof. vm_compute. done. Qed.

(** C6, amended.  On every run [rs.Close] is called at most once and only
    after the interrupt was taken from the channel, so it is never called
    on a run that observed no interrupt; on a run that observed the
    interrupt and exits with status 0 it is called exactly once; and a run
    that observed the interrupt without calling it was ended by line 119
    or by a signal that is not subscribed. *)
Theorem close_only_after_interrupt w f :
  let tr := trace_of w f in
  close_count tr ≤ 1 ∧
  (∀ i rs r, tr !! i = Some (EvClose rs r) →
     ∃ j, j < i ∧ tr !! j = Some (EvRecv SIGINT)) ∧
  (interrupt_observed tr = false → close_count tr = 0) ∧
  (interrupt_observed tr = true → status_of w f = Exit 0 → close_count tr = 1) ∧
  (interrupt_observed tr = true → close_count tr = 0 →
     status_of w f = Exit 1 ∨ ∃ s, s ≠ SIGINT ∧ status_of w f = Killed s).
Proof.
  cbv zeta. split; [|split; [|split; [|split]]].
  - run_cases_steps w f; cbn; lia.
  - assert (Hafter : each_after is_interrupt is_close false (trace_of w f) = true).
    { run_cases_steps w f; reflexivity. }
    intros i rs r Hi.
    destruct (each_after_sound _ _ _ _ _ _ Hafter Hi eq_refl)
      as [?|(j & e' & Hj & He' & HP)]; [done|].
    exists j. split; [done|]. by rewrite <- (is_interrupt_inv _ HP).
  - run_cases_steps w f; cbn; done.
  - run_cases_steps w f; cbn; done.
  - run_cases_steps w f; cbn; intros Hobs Hcount; try done; try by left.
    all: right; exists s; split; [|done].
    all: intros ->; specialize (Hsint eq_refl); lia.
Qed.

(** ** C7: a failure of [rs.Close] *)

Lemma similar_refl st : similar st st.
Proof. by split. Qed.

Lemma similar_add_event e1 e2 st1 st2 :
  forget_close_result e1 = forget_close_result e2 →
  similar st1 st2 → similar (add_event e1 st1) (add_event e2 st2).
Proof.
  intros He [T F L LF G D K S C B Sc]. split; cbn; try done.
  rewrite !fmap_app. cbn. by rewrite T, He.
Qed.

Lemma similar_set_sched sch st1 st2 :
  similar st1 st2 → similar (set_sched sch st1) (set_sched sch st2).
Proof. intros [T F L LF G D K S C B Sc]. by split. Qed.

Lemma similar_set_serve_task t st1 st2 :
  similar st1 st2 → similar (set_serve_task t st1) (set_serve_task t st2).
Proof. intros [T F L LF G D K S C B Sc]. by split. Qed.

Lemma similar_set_chan n buf st1 st2 :
  similar st1 st2 → similar (set_chan n buf st1) (set_chan n buf st2).
Proof. intros [T F L LF G D K S C B Sc]. by split. Qed.

Lemma similar_set_deferred ds st1 st2 :
  similar st1 st2 → similar (set_deferred ds st1) (set_deferred ds st2).
Proof. intros [T F L LF G D K S C B Sc]. by split. Qed.

Create HintDb similar.
#[local] Hint Resolve similar_add_event similar_set_sched similar_set_serve_task
  similar_set_chan similar_set_deferred : similar.

Lemma async_step_similar a st1 st2 :
  similar st1 st2 → similar_res (async_step a st1) (async_step a st2).
Proof.
  intros Hs. pose proof Hs as [T F L LF G D K S C B Sc].
  destruct a as [[err|]|s]; cbn.
  - rewrite K. destruct (serve_task st2); cbn; [|done].
    split; [done|]. auto with similar.
  - rewrite K. destruct (serve_task st2); cbn; [|done].
    auto with similar.
  - rewrite S. destruct (decide (s ∈ subscribed st2)); cbn.
    + unfold chan_send. rewrite B, C. case_decide; auto with similar.
    + by destruct (default_exits s).
Qed.

Lemma async_steps_similar evs st1 st2 :
  similar st1 st2 → similar_res (async_steps evs st1) (async_steps evs st2).
Proof.
  revert st1 st2. induction evs as [|a evs IH]; intros st1 st2 Hs; cbn; [done|].
  rewrite !bind_eq. pose proof (async_step_similar a _ _ Hs) as Ha.
  destruct (async_step a st1) as [[] s1|x1 s1],
           (async_step a st2) as [[] s2|x2 s2]; cbn in Ha; try done.
  by apply IH.
Qed.

Lemma yield_similar st1 st2 :
  similar st1 st2 → similar_res (yield st1) (yield st2).
Proof.
  intros Hs. unfold yield. rewrite (similar_sched _ _ Hs).
  destruct (sched st2) as [|evs rest]; [done|].
  apply async_steps_similar. auto with similar.
Qed.

(** A step keeps two runs similar when its effect does. *)
Lemma step_similar {A B} (f1 : State → A * State) (f2 : State → B * State) st1 st2 :
  (∀ s1 s2, similar s1 s2 → similar (f1 s1).2 (f2 s2).2) →
  similar st1 st2 → similar_res (step f1 st1) (step f2 st2).
Proof.
  intros Hf Hs. unfold step. rewrite !bind_eq.
  pose proof (yield_similar _ _ Hs) as Hy.
  destruct (yield st1) as [[] s1|x1 s1], (yield st2) as [[] s2|x2 s2];
    cbn in Hy; try done.
  cbn. by apply Hf.
Qed.

Lemma bind_similar {A1 A2 B1 B2} (m1 : M A1) (m2 : M A2)
    (k1 : A1 → M B1) (k2 : A2 → M B2) st1 st2 :
  similar_res (m1 st1) (m2 st2) →
  (∀ a1 a2 s1 s2, similar s1 s2 → similar_res (k1 a1 s1) (k2 a2 s2)) →
  similar_res ((m1 ≫= k1) st1) ((m2 ≫= k2) st2).
Proof.
  intros Hm Hk. rewrite !bind_eq.
  destruct (m1 st1) as [a1 s1|x1 s1], (m2 st2) as [a2 s2|x2 s2]; try done.
  by apply Hk.
Qed.

Lemma call_similar e st1 st2 :
  similar st1 st2 → similar_res (call e st1) (call e st2).
Proof.
  intros Hs. apply step_similar; [|done].
  intros s1 s2 H. by apply similar_add_event.
Qed.

Lemma run_deferred_call_similar c w d st1 st2 :
  similar st1 st2 →
  similar_res (run_deferred_call (with_Close c w) d st1)
              (run_deferred_call w d st2).
Proof.
  intros Hs. destruct d as [rs]. cbn.
  apply bind_similar; [by apply call_similar|].
  intros _ _ s1 s2 H1. apply bind_similar.
  - apply step_similar; [|done]. intros s1' s2' H. by apply similar_add_event.
  - intros _ _ s1' s2' H2. by apply call_similar.
Qed.

Lemma run_deferred_calls_similar c w ds st1 st2 :
  similar st1 st2 →
  similar_res (run_deferred_calls (with_Close c w) ds st1)
              (run_deferred_calls w ds st2).
Proof.
  revert st1 st2. induction ds as [|d ds IH]; intros st1 st2 Hs; cbn; [done|].
  apply bind_similar; [by apply run_deferred_call_similar|].
  intros _ _ s1 s2 H. by apply IH.
Qed.

Lemma log_entries_forget tr :
  log_entries (forget_close_result <$> tr) = log_entries tr.
Proof.
  induction tr as [|e tr IH]; [done|].
  rewrite fmap_cons. unfold log_entries in *. cbn [List.filter].
  destruct e; cbn [forget_close_result is_log]; by rewrite IH.
Qed.

(** C7, as stated, fails in one part: the failure is not logged.  Here
    [rs.Close] returns an error and the log has the three entries of any
    shutdown, none of which carries an error. *)
Lemma close_error_not_logged :
  let w := example_world ∅ (Some (LibErr "close failed")) interrupt_while_waiting in
  List.filter is_close (trace_of w default_flags) =
    [EvClose 1 (Some (LibErr "close failed"))] ∧
  log_entries (trace_of w default_flags) =
    [EvLog InfoLevel None "Got SIGINT" [];
     EvLog DebugLevel None "Closing the snapshotter" [];
     EvLog InfoLevel None "Exiting" []] ∧
  status_of w default_flags = Exit 0.
Proof. vm_compute. done. Qed.

(** C7, amended.  What [rs.Close] returns is dropped: whatever it returns,
    the run ends with the same status, writes the same log entries and
    makes the same calls.  A failure of the close operation is therefore
    neither logged nor escalated. *)
Theorem close_result_ignored w f close :
  status_of (with_Close close w) f = status_of w f ∧
  log_entries (trace_of (with_Close close w) f) = log_entries (trace_of w f) ∧
  forget_close_result <$> trace_of (with_Close close w) f =
    forget_close_result <$> trace_of w f.
Proof.
  assert (Hsim : similar_res (A := ()) (B := ())
            (match run (with_Close close w) f with (x, st) => Halt x st end)
            (match run w f with (x, st) => Halt x st end)).
  { rewrite !run_unfold.
    change (main (with_Close close w) f (init (with_Close close w)))
      with (main w f (init w)).
    destruct (main w f (init w)) as [[] st|x st]; cbn; [|by split].
    pose proof (run_deferred_calls_similar close w (deferred st)
                  _ _ (similar_refl (set_deferred [] st))) as Hd.
    unfold run_deferred.
    destruct (run_deferred_calls (with_Close close w) (deferred st)
                (set_deferred [] st)) as [[] s1|x1 s1],
             (run_deferred_calls w (deferred st) (set_deferred [] st))
               as [[] s2|x2 s2]; cbn in Hd; done. }
  unfold status_of, trace_of.
  destruct (run (with_Close close w) f) as [x1 s1], (run w f) as [x2 s2].
  destruct Hsim as [-> Hs]. cbn. split; [done|].
  pose proof (similar_trace _ _ Hs) as Ht. split; [|done].
  by rewrite <- (log_entries_forget (trace s1)), Ht, log_entries_forget.
Qed.

(** ** C8: exit codes *)



(** ** C9: the subscription to the interrupt *)

(** C9.  Every channel a run makes has room for one value, every
    subscription is to [os.Interrupt] alone and there is at most one, and
    what the receive returns is the interrupt, which was delivered.  With
    the channel of [waitForSIGINT], an interrupt that arrives between the
    subscription and the receive is kept: the receive returns it.  Another
    signal is not routed to the channel: one that the runtime treats as
    fatal ends the process there. *)
Theorem interrupt_subscription w f :
  let tr := trace_of w f in
  (∀ n, EvMakeChan n ∈ tr → n = 1) ∧
  (∀ sigs, EvNotify sigs ∈ tr → sigs = [os_Interrupt]) ∧
  length (List.filter is_notify tr) ≤ 1 ∧
  (∀ s, EvRecv s ∈ tr → s = SIGINT ∧ Deliver SIGINT ∈ concat (schedule w)) ∧
  (∀ st rest,
     sched st = [] :: [] :: [Deliver SIGINT] :: rest →
     ∃ st', waitForSIGINT st = Done () st' ∧
       trace st' = trace st ++ [EvMakeChan 1; EvNotify [SIGINT]; EvRecv SIGINT] ∧
       sched st' = rest) ∧
  (∀ st s rest,
     subscribed st = [] → s ≠ SIGINT → default_exits s = true →
     sched st = [] :: [] :: [Deliver s] :: rest →
     ∃ st', waitForSIGINT st = Halt (Killed s) st' ∧
       trace st' = trace st ++ [EvMakeChan 1; EvNotify [SIGINT]]).
Proof.
  cbv zeta. split; [|split; [|split; [|split; [|split]]]].
  - run_cases_steps w f; intros n Hin; in_trace Hin; by injection Hin as ->.
  - run_cases_steps w f; intros sigs Hin; in_trace Hin; by injection Hin as ->.
  - run_cases_steps w f; cbn; lia.
  - run_cases_steps w f; intros s' Hin; in_trace Hin; injection Hin as ->.
    all: split; [done|]; first [exact Hint | apply Hint; lia].
  - intros st rest Hsch. destruct st. cbn in Hsch. subst.
    unfold waitForSIGINT, make_chan, signal_Notify, chan_recv, recv_ready, step,
      yield, effect, os_Interrupt, mbind, M_bind.
    cbn. unfold mbind, M_bind, async_step. cbn.
    rewrite decide_True by apply list_elem_of_here.
    unfold chan_send. cbn. rewrite decide_True by lia.
    destruct rest; cbn; eexists; (split; [reflexivity|]); cbn;
      by rewrite <- !app_assoc.
  - intros st s rest Hsub Hs Hdef Hsch. destruct st. cbn in Hsch, Hsub. subst.
    unfold waitForSIGINT, make_chan, signal_Notify, chan_recv, recv_ready, step,
      yield, effect, os_Interrupt, mbind, M_bind.
    cbn. unfold mbind, M_bind, async_step. cbn.
    rewrite decide_False by (by intros ->%list_elem_of_singleton).
    rewrite Hdef. eexists. split; [reflexivity|]. cbn. by rewrite <- !app_assoc.
Qed.

(** ** C10: the stale path is removed with all it contains *)


(** * Further properties of [main] and [waitForSIGINT] *)

(** ** Log entries and the logging setup *)

Lemma is_json_formatter_inv e :
  is_json_formatter e = true → e = EvSetFormatter (JSONFormatter RFC3339NanoFixed).
Proof. destruct e as [| | |[|[]]| | | | | | | | | | | | | | | |]; by try discriminate. Qed.

Lemma is_set_level_inv e : is_set_level e = true → ∃ lvl, e = EvSetLevel lvl.
Proof. destruct e; try discriminate. by eexists. Qed.

(** X1.  The entry "failed to prepare logger" is all a run does when it is
    logged, so it is written with the logger as it is at process start;
    every other log entry of a run comes after the call that installs the
    JSON formatter, which comes after the call that sets the level. *)
Theorem log_entries_after_logging_setup w f :
  let tr := trace_of w f in
  (∀ e, e ∈ tr → is_logger_fatal e = true → tr = [e]) ∧
  (∀ i e, tr !! i = Some e → is_later_entry e = true →
     ∃ k, k < i ∧
       tr !! k = Some (EvSetFormatter (JSONFormatter RFC3339NanoFixed)) ∧
       ∃ j lvl, j < k ∧ tr !! j = Some (EvSetLevel lvl)).
Proof.
  cbv zeta. split.
  - run_cases_steps w f; intros ev Hin Hf; in_trace Hin; subst ev;
      by try discriminate Hf.
  - assert (Hfmt : each_after is_json_formatter is_later_entry false
                     (trace_of w f) = true ∧
                   each_after is_set_level is_json_formatter false
                     (trace_of w f) = true).
    { run_cases_steps w f; by split. }
    destruct Hfmt as [Hfmt Hlvl]. intros i e Hi He.
    destruct (each_after_sound _ _ _ _ _ _ Hfmt Hi He)
      as [?|(k & e' & Hk & He' & HP)]; [done|].
    exists k. split; [done|].
    rewrite (is_json_formatter_inv _ HP) in He'. split; [done|].
    destruct (each_after_sound _ _ _ _ _ _ Hlvl He' eq_refl)
      as [?|(j & e'' & Hj & He'' & HP')]; [done|].
    destruct (is_set_level_inv _ HP') as [lvl ->]. by exists j, lvl.
Qed.

(** ** The snapshotter from its construction to its close *)

(** X2.  The engine constructor is called at most once, with the root
    directory of the flags and the configuration that came out of the
    decoding of the configuration file; the snapshotter that is deferred
    for closing, wrapped into the service and closed is the one this call
    returned, and the close event carries what [rs.Close] returned for
    it. *)
Theorem snapshotter_handle_flow w f :
  let tr := trace_of w f in
  length (List.filter is_new_service tr) ≤ 1 ∧
  (∀ root cf r, EvNewService root cf r ∈ tr →
     root = rootDir f ∧
     cf = (decode_file w (configPath f) zero_Config (fs0 w)).1 ∧
     r = service_NewStargzSnapshotterService w root cf) ∧
  (∀ h, EvDefer (DeferClose h) ∈ tr ∨ EvFromSnapshotter h ∈ tr ∨
        (∃ r, EvClose h r ∈ tr) →
     ∃ cf, EvNewService (rootDir f) cf (inl h) ∈ tr) ∧
  (∀ h r, EvClose h r ∈ tr → r = rs_Close w h).
Proof.
  cbv zeta. split; [|split; [|split]].
  - run_cases_steps w f; cbn; lia.
  - run_cases_steps w f; intros root cf r Hin; in_trace Hin;
      injection Hin as -> -> ->; ready; same_lhs;
      repeat match goal with H : decode_file _ _ _ _ = _ |- _ => rewrite H end;
      by cbn.
  - run_cases_steps w f; intros h [Hin|[Hin|[r Hin]]]; in_trace Hin;
      injection Hin as ->; exists cfg; elem_here.
  - run_cases_steps w f; intros h r Hin; in_trace Hin; by injection Hin as -> ->.
Qed.

(** ** The order of the shutdown *)

Lemma right_after_sound P Q prev tr i e :
  right_after P Q prev tr = true →
  tr !! i = Some e → Q e = true →
  match i with
  | 0 => prev = true
  | S j => ∃ e', tr !! j = Some e' ∧ P e' = true
  end.
Proof.
  revert prev i. induction tr as [|a tr IH]; intros prev i; simpl; [done|].
  intros [Hhere Hrest]%andb_prop Hi HQ.
  destruct i as [|i]; simpl in Hi.
  - injection Hi as ->. by rewrite HQ in Hhere.
  - specialize (IH _ _ Hrest Hi HQ). destruct i as [|i].
    + exists a. by split.
    + exact IH.
Qed.

Lemma is_got_sigint_inv e : is_got_sigint e = true → e = got_sigint.
Proof.
  destruct e as [[] [] ? []| | | | | | | | | | | | | | | | | | |];
    try discriminate. by intros ->%String.eqb_eq.
Qed.

Lemma is_closing_inv e : is_closing e = true → e = closing.
Proof.
  destruct e as [[] [] ? []| | | | | | | | | | | | | | | | | | |];
    try discriminate. by intros ->%String.eqb_eq.
Qed.

Lemma is_close_inv e : is_close e = true → ∃ h r, e = EvClose h r.
Proof. destruct e; try discriminate. by eexists _, _. Qed.

(** X3.  The shutdown goes in the order of lines 122-123 and 87-91: the
    entry "Got SIGINT" is written right after the interrupt was taken from
    the channel, the deferred call runs next and writes "Closing the
    snapshotter", calls [rs.Close] and writes "Exiting", each right after
    the other.  "Exiting" is the last thing a run does, and the run then
    ends with status 0. *)
Theorem shutdown_sequence w f :
  let tr := trace_of w f in
  (∀ i, tr !! i = Some got_sigint →
     ∃ j, i = S j ∧ tr !! j = Some (EvRecv SIGINT)) ∧
  (∀ i, tr !! i = Some closing →
     ∃ j, i = S j ∧ tr !! j = Some got_sigint) ∧
  (∀ i h r, tr !! i = Some (EvClose h r) →
     ∃ j, i = S j ∧ tr !! j = Some closing) ∧
  (∀ i, tr !! i = Some exiting →
     (∃ j h r, i = S j ∧ tr !! j = Some (EvClose h r)) ∧
     last tr = Some exiting ∧ status_of w f = Exit 0).
Proof.
  cbv zeta.
  assert (Hord :
    right_after is_interrupt is_got_sigint false (trace_of w f) = true ∧
    right_after is_got_sigint is_closing false (trace_of w f) = true ∧
    right_after is_closing is_close false (trace_of w f) = true ∧
    right_after is_close is_exiting false (trace_of w f) = true).
  { run_cases_steps w f; by repeat split. }
  destruct Hord as (H1 & H2 & H3 & H4).
  split; [|split; [|split]].
  - intros i Hi. pose proof (right_after_sound _ _ _ _ _ _ H1 Hi eq_refl) as H.
    destruct i as [|j]; [done|]. destruct H as (e' & He' & HP).
    exists j. split; [done|]. by rewrite <- (is_interrupt_inv _ HP).
  - intros i Hi. pose proof (right_after_sound _ _ _ _ _ _ H2 Hi eq_refl) as H.
    destruct i as [|j]; [done|]. destruct H as (e' & He' & HP).
    exists j. split; [done|]. by rewrite <- (is_got_sigint_inv _ HP).
  - intros i h r Hi. pose proof (right_after_sound _ _ _ _ _ _ H3 Hi eq_refl) as H.
    destruct i as [|j]; [done|]. destruct H as (e' & He' & HP).
    exists j. split; [done|]. by rewrite <- (is_closing_inv _ HP).
  - intros i Hi. split.
    + pose proof (right_after_sound _ _ _ _ _ _ H4 Hi eq_refl) as H.
      destruct i as [|j]; [done|]. destruct H as (e' & He' & HP).
      destruct (is_close_inv _ HP) as (h & r & ->). by exists j, h, r.
    + apply list_elem_of_lookup_2 in Hi. revert Hi.
      run_cases_steps w f; intros Hin; in_trace Hin; done.
Qed.

(** ** Signals, and where a run blocks *)

(** X4.  A run is ended by the interrupt only when the interrupt comes
    before line 128 subscribed to it.  Any signal that ends a run is one the
    runtime treats as fatal and was delivered; such a run logs no fatal
    entry and does not reach "Exiting".  And the one place where a run stays
    blocked is the receive of line 129, right after the subscription. *)
Theorem signals_and_blocking w f :
  let tr := trace_of w f in
  (status_of w f = Killed SIGINT → ∀ sigs, EvNotify sigs ∉ tr) ∧
  (∀ s, status_of w f = Killed s →
     default_exits s = true ∧ Deliver s ∈ concat (schedule w) ∧
     (∀ e, e ∈ tr → is_fatal_entry e = false) ∧
     exiting ∉ tr) ∧
  (status_of w f = Waiting →
     last tr = Some (EvNotify [SIGINT]) ∧ ∀ s, EvRecv s ∉ tr).
Proof.
  cbv zeta. split; [|split].
  - run_cases w f; intros Hst; try discriminate Hst.
    injection Hst as ->. specialize (Hsint eq_refl).
    destruct k as [|[|k]]; [| |lia]; intros sigs Hin; in_trace Hin.
  - run_cases_steps w f; intros s' Hst; try discriminate Hst;
      injection Hst as ->; (split; [done|]); (split; [done|]);
      (split; [intros ev Hin; in_trace Hin; by subst ev
              |intros Hin; in_trace Hin]).
  - run_cases_steps w f; intros Hst; try discriminate Hst.
    split; [done|]. intros s' Hin. in_trace Hin.
Qed.

(** X5.  A clean return of [rpc.Serve] does not end the process: line 118
    only acts on an error.  On a run that started the serve task, when all
    that happens is that [rpc.Serve] returns nil or a signal comes that the
    runtime ignores, [main] stays in the receive of line 129 and nothing is
    closed. *)
Theorem clean_serve_return_keeps_waiting w f :
  EvGoServe (address f) ∈ trace_of w f →
  (∀ a, a ∈ concat (schedule w) → a = ServeReturns None ∨ a = Deliver SIGUSR1) →
  status_of w f = Waiting ∧
  ∃ pre, trace_of w f =
    pre ++ [EvGoServe (address f); EvMakeChan 1; EvNotify [SIGINT]].
Proof.
  revert w f.
  assert (Hno : ∀ w : World,
    (∀ a, a ∈ concat (schedule w) → a = ServeReturns None ∨ a = Deliver SIGUSR1) →
    (∀ er, ServeReturns (Some er) ∉ concat (schedule w)) ∧
    (∀ s, Deliver s ∈ concat (schedule w) → default_exits s = false)).
  { intros w Hall. split.
    - intros er Hin. by destruct (Hall _ Hin).
    - intros s Hin. destruct (Hall _ Hin) as [E|E]; [done|]. by injection E as ->. }
  intros w f Hgo Hall. destruct (Hno w Hall) as [Hns Hnd]. clear Hno Hall.
  revert Hgo.
  run_cases w f; intros Hgo; try (in_trace Hgo; fail).
  - by specialize (Hnd _ Hint).
  - by destruct (Hns _ Hserr).
  - rewrite (Hnd _ Hsig) in Hdef. done.
  - split; [done|].
    exists (setup_events f (log_level st0) cfg cerr rs ++
            [EvMkdirAll (filepath_Dir w (address f)) 448 None;
             EvRemoveAll (address f) None; EvListen "unix" (address f) None]).
    unfold setup_events, logging_events, shutdown_events. by cbn.
Qed.

(** X5 at work: [rpc.Serve] returns nil and SIGUSR1 comes twice. *)
Lemma clean_serve_return_keeps_waiting_witness :
  let w := example_world ∅ None
             [[ServeReturns None]; [Deliver SIGUSR1]; []; [Deliver SIGUSR1]] in
  EvGoServe (address default_flags) ∈ trace_of w default_flags ∧
  status_of w default_flags = Waiting.
Proof.
  cbv zeta.
  assert (Hgo : EvGoServe (address default_flags) ∈
                trace_of (example_world ∅ None
                  [[ServeReturns None]; [Deliver SIGUSR1]; []; [Deliver SIGUSR1]])
                  default_flags).
  { vm_compute. repeat first [apply list_elem_of_here | apply list_elem_of_further]. }
  split; [exact Hgo|].
  refine (proj1 (clean_serve_return_keeps_waiting _ _ Hgo _)).
  intros a Ha. cbn in Ha. rewrite ?elem_of_cons, ?elem_of_nil in Ha.
  split_or Ha; subst a; auto.
Defined.

(** ** What the provisioning changes in the file system *)











(** ** A configuration file that is there and cannot be used *)

(** Only a path with nothing at it gives a not-exist error. *)
Lemma decode_file_present w p v (fs : FS) nd cf er :
  fs !! p = Some nd → decode_file w p v fs = (cf, Some er) →
  os_IsNotExist er = false.
Proof.
  unfold decode_file, os_ReadFile. intros ->.
  destruct nd as [bs|q|].
  - destruct (fault w OpReadFile) as [flt|].
    + intros [= _ <-]. by destruct flt.
    + destruct (toml_Decode w bs v) as [c [msg|]]; simpl; [|done].
      by intros [= _ <-].
  - by intros [= _ <-].
  - by intros [= _ <-].
Qed.

(** X8.  The tolerance of line 79 is for a missing file only.  When
    something is at the configuration path and the decoding fails (the path
    is a directory, the file cannot be read, its content does not parse),
    the run ends with the fatal entry for the configuration file and status
    1, at the default path as at any other. *)
Theorem broken_config_is_fatal w f lv nd er :
  logging_ready w f lv →
  fs0 w !! configPath f = Some nd →
  (decode_file w (configPath f) zero_Config (fs0 w)).2 = Some er →
  config_load_fatal w f lv er.
Proof.
  intros Hready Hnd Hdec.
  destruct (decode_file w (configPath f) zero_Config (fs0 w)) as [cf ce] eqn:Hd.
  simpl in Hdec. subst ce.
  pose proof (decode_file_present _ _ _ _ _ _ _ Hnd Hd) as Hne.
  unfold config_load_fatal, fatal_entry.
  run_cases w f; ready; same_lhs; try done.
  all: cbn in *; rewrite Hne in *; done.
Qed.

(** X8 at work: a directory at the default configuration path. *)
Lemma broken_config_is_fatal_witness :
  let w := example_world (<[defaultConfigPath := Dir 493]> ∅) None [] in
  logging_ready w default_flags InfoLevel ∧
  fs0 w !! configPath default_flags = Some (Dir 493) ∧
  config_load_fatal w default_flags InfoLevel (SysErr EISDIR).
Proof.
  cbv zeta. split; [done|]. split; [reflexivity|].
  by apply (broken_config_is_fatal _ default_flags InfoLevel (Dir 493)).
Defined.

(** ** Interrupts and the channel of [waitForSIGINT] *)

Lemma State_eq st1 st2 :
  trace st1 = trace st2 → fs st1 = fs st2 → log_level st1 = log_level st2 →
  log_formatter st1 = log_formatter st2 → golog_output st1 = golog_output st2 →
  deferred st1 = deferred st2 → serve_task st1 = serve_task st2 →
  subscribed st1 = subscribed st2 → chan_cap st1 = chan_cap st2 →
  chan_buf st1 = chan_buf st2 → sched st1 = sched st2 → st1 = st2.
Proof. destruct st1, st2. cbn. congruence. Qed.

(** With the buffer full, further interrupts are dropped. *)
Lemma async_steps_full n st x :
  SIGINT ∈ subscribed st → chan_cap st = 1 → chan_buf st = [x] →
  async_steps (replicate n (Deliver SIGINT)) st = Done () st.
Proof.
  intros Hsub Hcap Hbuf. induction n as [|n IH]; simpl; [done|].
  rewrite bind_eq. unfold async_step. rewrite decide_True by done.
  unfold chan_send. rewrite decide_False by (rewrite Hbuf, Hcap; simpl; lia).
  exact IH.
Qed.

(** Of a burst of interrupts the first goes to the buffer. *)
Lemma async_steps_burst n st :
  SIGINT ∈ subscribed st → chan_cap st = 1 → chan_buf st = [] →
  async_steps (replicate (S n) (Deliver SIGINT)) st
  = Done () (set_chan 1 [SIGINT] st).
Proof.
  intros Hsub Hcap Hbuf. simpl. rewrite bind_eq. unfold async_step.
  rewrite decide_True by done.
  unfold chan_send. rewrite decide_True by (rewrite Hbuf, Hcap; simpl; lia).
  rewrite Hbuf, Hcap. simpl.
  by apply async_steps_full with (x := SIGINT).
Qed.

(** While nothing happens the receive stays blocked. *)
Lemma recv_loop_idle m sch st :
  chan_buf st = [] → recv_loop (replicate m [] ++ sch) st = recv_loop sch st.
Proof.
  intros Hbuf. induction m as [|m IH]; simpl; [done|]. by rewrite Hbuf.
Qed.

Lemma recv_loop_ready sch st x buf :
  chan_buf st = x :: buf →
  recv_loop sch st =
  Done x (add_event (EvRecv x) (set_chan (chan_cap st) buf (set_sched sch st))).
Proof. intros Hbuf. destruct sch; simpl; by rewrite Hbuf. Qed.

Lemma recv_loop_burst n rest st :
  SIGINT ∈ subscribed st → chan_cap st = 1 → chan_buf st = [] →
  recv_loop (replicate (S n) (Deliver SIGINT) :: rest) st =
  Done SIGINT (add_event (EvRecv SIGINT) (set_chan 1 [] (set_sched rest st))).
Proof.
  intros Hsub Hcap Hbuf. cbn [recv_loop]. rewrite Hbuf.
  rewrite async_steps_burst by done.
  by rewrite (recv_loop_ready _ _ SIGINT []).
Qed.

(** The state [waitForSIGINT] returns in when interrupts come, all at the
    same time, once the subscription is made. *)
Lemma waitForSIGINT_burst st m n rest :
  sched st = [] :: [] :: replicate m [] ++ replicate (S n) (Deliver SIGINT) :: rest →
  waitForSIGINT st =
  Done () (mkState (trace st ++ [EvMakeChan 1; EvNotify [SIGINT]; EvRecv SIGINT])
             (fs st) (log_level st) (log_formatter st) (golog_output st)
             (deferred st) (serve_task st) (SIGINT :: subscribed st) 1 [] rest).
Proof.
  intros Hsch. destruct st as [t g l fm o d k sb c b sc]. cbn [sched] in Hsch. subst sc.
  remember (replicate (S n) (Deliver SIGINT)) as burst eqn:Hburst.
  unfold waitForSIGINT, make_chan, signal_Notify, chan_recv, recv_ready, step,
    yield, effect, os_Interrupt.
  rewrite !bind_eq. cbn. rewrite !bind_eq. cbn.
  destruct m as [|m]; cbn; rewrite !bind_eq; cbn; subst burst.
  - rewrite async_steps_burst; [|apply list_elem_of_here|done|done].
    rewrite (recv_loop_ready _ _ SIGINT []) by done.
    unfold mret, M_ret. f_equal.
    apply State_eq; state_simpl; try done. by rewrite <- !app_assoc.
  - rewrite recv_loop_idle by done.
    rewrite recv_loop_burst; [|apply list_elem_of_here|done|done].
    unfold mret, M_ret. f_equal.
    apply State_eq; state_simpl; try done. by rewrite <- !app_assoc.
Qed.

(** X9.  Interrupts that come once line 128 subscribed, one or many at a
    time, before or during the receive: [waitForSIGINT] returns, having
    taken one interrupt from the channel; the others were dropped, the
    channel of capacity one is empty again. *)
Theorem interrupt_burst st m n rest :
  sched st = [] :: [] :: replicate m [] ++ replicate (S n) (Deliver SIGINT) :: rest →
  ∃ st', waitForSIGINT st = Done () st' ∧
    trace st' = trace st ++ [EvMakeChan 1; EvNotify [SIGINT]; EvRecv SIGINT] ∧
    chan_buf st' = [] ∧
    sched st' = rest ∧
    fs st' = fs st ∧ deferred st' = deferred st.
Proof.
  intros Hsch. eexists. split; [by apply (waitForSIGINT_burst st m n rest)|].
  by cbn.
Qed.

(** X9 at work: three interrupts at once while [main] is in the receive. *)
Lemma interrupt_burst_witness :
  let st := set_sched
              [[]; []; []; [Deliver SIGINT; Deliver SIGINT; Deliver SIGINT]; []]
              (init (example_world ∅ None [])) in
  ∃ st', waitForSIGINT st = Done () st' ∧
    trace st' = [EvMakeChan 1; EvNotify [SIGINT]; EvRecv SIGINT] ∧
    chan_buf st' = [] ∧ sched st' = [[]].
Proof.
  cbv zeta.
  destruct (interrupt_burst
              (set_sched
                 [[]; []; []; [Deliver SIGINT; Deliver SIGINT; Deliver SIGINT]; []]
                 (init (example_world ∅ None [])))
              1 2 [[]] eq_refl) as (st' & Hw & Htr & Hbuf & Hsch & _).
  exists st'. by repeat split.
Defined.

(** ** When the interrupt comes *)

(** A run whose bootstrap goes through is the wait for the interrupt and
    the shutdown, started in the state the bootstrap leaves. *)
Lemma run_serving w f lv cf ce h g1 g2 g3 :
  service_ready w f lv cf ce h →
  os_MkdirAll (fault w OpMkdirAll) (filepath_Dir w (address f)) 448 (fs0 w)
    = (g1, None) →
  os_RemoveAll (fault w OpRemoveAll) (address f) g1 = (g2, None) →
  net_Listen (fault w OpListen) (address f) g2 = (g3, None) →
  run w f =
  finish w ((waitForSIGINT ;; log_Info "Got SIGINT") (serving_state w f lv cf ce h g3)).
Proof.
  intros (((Hparse & Hver) & Hcfg & Htol) & Hsvc) Hmk Hrm Hli.
  rewrite run_unfold. unfold main. rewrite Hparse, Hver.
  do 4 idle_step. rewrite Hcfg. state_simpl.
  rewrite bind_eq.
  assert (Hpass :
    match ce with
    | Some e =>
        if negb (os_IsNotExist e && String.eqb (configPath f) defaultConfigPath)
        then Fatalf (Some e) "failed to load config file %q" [configPath f]
        else mret ()
    | None => mret ()
    end = (mret () : M ())).
  { destruct ce as [e|]; [|done]. cbn [config_tolerated] in Htol. by rewrite Htol. }
  rewrite Hpass. state_simpl.
  idle_step. rewrite Hsvc.
  do 5 idle_step. rewrite Hmk. state_simpl.
  rewrite bind_eq. state_simpl. idle_step. rewrite Hrm. state_simpl.
  rewrite bind_eq. state_simpl. idle_step. rewrite Hli. state_simpl.
  rewrite bind_eq. state_simpl. idle_step.
  do 2 f_equal.
Qed.

(** One interrupt, after [n] steps of [main] in which nothing happens: from
    the third step on it is taken from the channel and the shutdown runs to
    its end; before that it ends the process. *)
Lemma serving_interrupt w h st n :
  sched st = replicate n [] ++ [[Deliver SIGINT]] →
  subscribed st = [] →
  deferred st = [DeferClose h] →
  ∃ st',
    finish w ((waitForSIGINT ;; log_Info "Got SIGINT") st) =
      (if decide (2 ≤ n) then Exit 0 else Killed SIGINT, st') ∧
    trace st' = trace st ++
      (if decide (2 ≤ n) then shutdown_events w h
       else take n (shutdown_events w h)).
Proof.
  intros Hsch Hsub Hdef. destruct n as [|[|m]].
  - destruct st as [t g l fm o d k sb c b sc]. cbn in Hsch, Hsub. subst sc sb.
    unfold waitForSIGINT, make_chan, step, yield.
    rewrite !bind_eq. cbn. rewrite bind_eq. cbn.
    eexists. split; [reflexivity|]. cbn. by rewrite app_nil_r.
  - destruct st as [t g l fm o d k sb c b sc]. cbn in Hsch, Hsub. subst sc sb.
    unfold waitForSIGINT, make_chan, signal_Notify, step, yield, effect.
    rewrite !bind_eq. cbn. rewrite !bind_eq. cbn.
    eexists. split; [reflexivity|]. by cbn.
  - destruct (decide (2 ≤ S (S m))) as [_|?]; [|lia]. rewrite bind_eq.
    rewrite (waitForSIGINT_burst st m 0 []) by exact Hsch.
    unfold log_Info, call. rewrite step_idle by reflexivity. state_simpl.
    cbn [finish]. unfold run_deferred. state_simpl. rewrite Hdef.
    cbn [run_deferred_calls run_deferred_call].
    unfold log_Debug, Close, log_Info, call.
    rewrite !bind_eq. rewrite step_idle by reflexivity. state_simpl.
    rewrite bind_eq. rewrite step_idle by reflexivity. state_simpl.
    rewrite step_idle by reflexivity. state_simpl.
    eexists. split; [reflexivity|]. state_simpl.
    unfold shutdown_events. by rewrite <- !app_assoc.
Qed.

(** X10.  On a run that started the serve task, with one interrupt and
    nothing else happening: when the interrupt comes after two or more steps
    of [main], that is once line 128 subscribed to it, the run goes through
    the whole shutdown and exits with status 0; when it comes earlier, in
    the window between the [go] statement and the subscription, it ends the
    process at once: nothing is received and the snapshotter is not
    closed. *)
Theorem interrupt_timing w f n :
  EvGoServe (address f) ∈ trace_of w f →
  schedule w = replicate n [] ++ [[Deliver SIGINT]] →
  ∃ pre h,
    if decide (2 ≤ n)
    then status_of w f = Exit 0 ∧
         trace_of w f = pre ++ EvGoServe (address f) :: shutdown_events w h
    else status_of w f = Killed SIGINT ∧
         trace_of w f = pre ++ EvGoServe (address f) :: take n (shutdown_events w h).
Proof.
  intros Hgo Hsch.
  assert (Hboot : ∃ lv cf ce h g1 g2 g3,
    service_ready w f lv cf ce h ∧
    os_MkdirAll (fault w OpMkdirAll) (filepath_Dir w (address f)) 448 (fs0 w)
      = (g1, None) ∧
    os_RemoveAll (fault w OpRemoveAll) (address f) g1 = (g2, None) ∧
    net_Listen (fault w OpListen) (address f) g2 = (g3, None)).
  { revert Hgo. clear Hsch.
    run_cases w f; intros Hgo; try (in_trace Hgo; fail);
      by exists (log_level st0), cfg, cerr, rs, fs1, fs2, (fs st0). }
  destruct Hboot as (lv & cf & ce & h & g1 & g2 & g3 & Hready & Hmk & Hrm & Hli).
  unfold status_of, trace_of.
  rewrite (run_serving w f lv cf ce h g1 g2 g3 Hready Hmk Hrm Hli).
  destruct (serving_interrupt w h (serving_state w f lv cf ce h g3) n)
    as (st' & -> & Htr); [exact Hsch|done|done|].
  cbn [fst snd]. rewrite Htr. cbn [trace serving_state].
  exists (setup_events f lv cf ce h ++
          [EvMkdirAll (filepath_Dir w (address f)) 448 None;
           EvRemoveAll (address f) None; EvListen "unix" (address f) None]), h.
  destruct (decide (2 ≤ n)); (split; [done|]); by rewrite <- !app_assoc.
Qed.

(** X10 at work: the interrupt after four steps. *)
Lemma interrupt_timing_witness :
  let w := example_world ∅ None [[]; []; []; []; [Deliver SIGINT]] in
  EvGoServe (address default_flags) ∈ trace_of w default_flags ∧
  status_of w default_flags = Exit 0 ∧
  close_count (trace_of w default_flags) = 1.
Proof.
  cbv zeta.
  assert (Hgo : EvGoServe (address default_flags) ∈
                trace_of (example_world ∅ None [[]; []; []; []; [Deliver SIGINT]])
                  default_flags).
  { vm_compute. repeat first [apply list_elem_of_here | apply list_elem_of_further]. }
  split; [exact Hgo|].
  destruct (interrupt_timing _ default_flags 4 Hgo eq_refl)
    as (pre & h & Hst & Htr).
  split; [exact Hst|]. by vm_compute.
Defined.

(** ** Starting again *)






